(** * Roll optimizer: width tiling, guillotine packing, multi-pass search

    A shallow embedding of [src/roll_nesting_finder_app/app.py] (the
    "RIP Optimizer" tab: [tile_width_only], [expand], [pack], [length] and
    [optimize]) together with the properties its specification states.

    Modelling conventions.
    - The program computes with Python numbers (widget floats mixed with
      integer literals).  They are modelled as exact rationals [Q]: [<=] is
      [Qle_bool], [<] and [>] are [Qltb], and Python's [==] on numbers is
      [Qeq_bool].  Rounding is therefore outside that model; the
      properties stated of the program are those that rounding leaves
      true.  Where rounding decides, the module [Binary64] has the packer
      over binary64 floats, to evaluate it on concrete inputs.
    - Integer loop counters ([n] in [1..5], the panel id) are [Z]; repeat
      counts ([range(q)], [range(ITERATIONS)]) are [nat].
    - The sidebar globals [ROLL_WIDTH], [OVERLAP] and [ITERATIONS] are section
      variables.
    - A Python exception ([ValueError] of [list.remove] and of [max] over an
      empty sequence) is the [ValueError] outcome of type [outcome].
    - [random.shuffle] is library code: it is a section variable acting on
      the caller's list held in a store, with its contract (the result is a
      rearrangement of the list) as a section hypothesis. *)

From Stdlib Require Import QArith ZArith List Bool Lia Lqa Permutation Sorted.
From Stdlib Require Import Floats.

Set Warnings "-inexact-float".
Import ListNotations.

Open Scope Q_scope.

(** ** Numbers *)

(** Python's [a < b] on numbers. *)
Definition Qltb (a b : Q) : bool := negb (Qle_bool b a).

(** ** Outcomes of calls that may raise *)

Inductive outcome (A : Type) : Type :=
| Value (a : A)
| ValueError.
Arguments Value {A} a.
Arguments ValueError {A}.

Definition bind {A B : Type} (m : outcome A) (k : A -> outcome B) : outcome B :=
  match m with
  | Value a => k a
  | ValueError => ValueError
  end.

Notation "x <- m ;; k" := (bind m (fun x => k))
  (at level 61, m at next level, right associativity).

(** ** Data *)

(** A piece is the dict [{"pid": pid, "orientations": [(w, h), ...]}]. *)
Record Piece : Type := mkPiece {
  pid : Z;
  orientations : list (Q * Q)
}.

(** A job is the tuple [(pid, w, h, q)]. *)
Definition Job : Type := (Z * Q * Q * nat)%type.

(** A free rectangle is the tuple [(fx, fy, fw, fh)]. *)
Definition FreeRect : Type := (Q * Q * Q * Q)%type.

(** A placement is the tuple [(pid, fx, fy, w, h)]. *)
Definition Placed : Type := (Z * Q * Q * Q * Q)%type.

Definition Layout : Type := list Placed.

(** ** Tiling *)

Section Tiling.

Variable OVERLAP : Q.

(** The [for n in [1, 2, 3, 4, 5]] loop of [tile_width_only], over the
    candidates still to try; [None] is the pair [(None, None)]. *)
Fixpoint tile_loop (w roll : Q) (ns : list Z) : option (Q * Z) :=
  match ns with
  | [] => None
  | n :: rest =>
      if Qle_bool w (inject_Z n * roll - inject_Z (n - 1) * OVERLAP)
      then Some ((w + inject_Z (n - 1) * OVERLAP) / inject_Z n, n)
      else tile_loop w roll rest
  end.

Definition tile_width_only (w roll : Q) : option (Q * Z) :=
  tile_loop w roll [1; 2; 3; 4; 5]%Z.

(** The bound a tile count must satisfy, and the strip width it yields. *)
Definition tile_bound (w roll : Q) (n : Z) : Prop :=
  w <= inject_Z n * roll - inject_Z (n - 1) * OVERLAP.

Definition strip_width (w : Q) (n : Z) : Q :=
  (w + inject_Z (n - 1) * OVERLAP) / inject_Z n.

(** The inner two loops of [expand]: [q] times [n] appends of one piece. *)
Fixpoint append_n (n : nat) (p : Piece) (pieces : list Piece) : list Piece :=
  match n with
  | O => pieces
  | S n' => append_n n' p (pieces ++ [p])
  end.

Fixpoint append_q (q n : nat) (p : Piece) (pieces : list Piece) : list Piece :=
  match q with
  | O => pieces
  | S q' => append_q q' n p (append_n n p pieces)
  end.

Section Expand.

Variable ROLL_WIDTH : Q.

(** The [for pid, w, h, q in jobs] loop of [expand], threading the
    accumulator [pieces]; [None] is the early [return None]. *)
Fixpoint expand_loop (jobs : list Job) (pieces : list Piece)
  : option (list Piece) :=
  match jobs with
  | [] => Some pieces
  | (pid, w, h, q) :: rest =>
      match tile_width_only w ROLL_WIDTH with
      | None => None
      | Some (tile_w, n) =>
          expand_loop rest
            (append_q q (Z.to_nat n)
               (mkPiece pid [(tile_w, h); (h, tile_w)]) pieces)
      end
  end.

Definition expand (jobs : list Job) : option (list Piece) :=
  expand_loop jobs [].

End Expand.

End Tiling.

(** ** Guillotine packer *)

(** [best] is [None] or the tuple [(waste, fx, fy, fw, fh, w, h)]. *)
Definition Best : Type := (Q * Q * Q * Q * Q * Q * Q)%type.

(** [best[0]]. *)
Definition best_waste (b : Best) : Q :=
  let '(waste, _, _, _, _, _, _) := b in waste.

(** Body of the innermost loop of [pack]: one free rectangle, one
    orientation.  A 7-tuple is truthy, so [not best] holds exactly when
    [best] is [None]. *)
Definition consider (f : FreeRect) (o : Q * Q) (best : option Best)
  : option Best :=
  let '(fx, fy, fw, fh) := f in
  let '(w, h) := o in
  if Qle_bool w fw && Qle_bool h fh then
    let waste := fw * fh - w * h in
    if match best with
       | None => true
       | Some b => Qltb waste (best_waste b)
       end
    then Some (waste, fx, fy, fw, fh, w, h)
    else best
  else best.

(** [for w, h in p["orientations"]]. *)
Fixpoint scan_orientations (f : FreeRect) (os : list (Q * Q))
  (best : option Best) : option Best :=
  match os with
  | [] => best
  | o :: os' => scan_orientations f os' (consider f o best)
  end.

(** [for fx, fy, fw, fh in free]. *)
Fixpoint scan_free (free : list FreeRect) (os : list (Q * Q))
  (best : option Best) : option Best :=
  match free with
  | [] => best
  | f :: free' => scan_free free' os (scan_orientations f os best)
  end.

(** Python's [==] on two 4-tuples of numbers. *)
Definition rect_eqb (a b : FreeRect) : bool :=
  let '(ax, ay, aw, ah) := a in
  let '(bx, by_, bw, bh) := b in
  Qeq_bool ax bx && Qeq_bool ay by_ && Qeq_bool aw bw && Qeq_bool ah bh.

(** [list.remove]: drops the first element equal to [r], raises
    [ValueError] when there is none. *)
Fixpoint list_remove (r : FreeRect) (l : list FreeRect)
  : outcome (list FreeRect) :=
  match l with
  | [] => ValueError
  | x :: t =>
      if rect_eqb x r then Value t
      else t' <- list_remove r t ;; Value (x :: t')
  end.

(** Python's [max] over a sequence: the first maximal element, [ValueError]
    on the empty sequence. *)
Definition py_max (l : list Q) : outcome Q :=
  match l with
  | [] => ValueError
  | x :: t => Value (fold_left (fun m y => if Qltb m y then y else m) t x)
  end.

(** [length(placed)]: [max(y + h for _, _, y, _, h in placed)]. *)
Definition length (placed : Layout) : outcome Q :=
  py_max (map (fun pl : Placed => let '(_, _, y, _, h) := pl in y + h) placed).

Section Packing.

Variable ROLL_WIDTH : Q.

(** The state of one [pack] call: the lists [free] and [placed]. *)
Definition PackState : Type := (list FreeRect * Layout)%type.

(** Body of the [for p in pieces] loop of [pack].  [Value None] is the
    early [return None]; [ValueError] can only come from [free.remove]. *)
Definition pack_step (st : PackState) (p : Piece)
  : outcome (option PackState) :=
  let '(free, placed) := st in
  match scan_free free (orientations p) None with
  | None => Value None
  | Some (_, fx, fy, fw, fh, w, h) =>
      let placed := placed ++ [(pid p, fx, fy, w, h)] in
      free <- list_remove (fx, fy, fw, fh) free ;;
      let right := (fx + w, fy, fw - w, h) in
      let bottom := (fx, fy + h, fw, fh - h) in
      let free :=
        if Qltb 0 (fw - w) && Qltb 0 h then free ++ [right] else free in
      let free :=
        if Qltb 0 fw && Qltb 0 (fh - h) then free ++ [bottom] else free in
      Value (Some (free, placed))
  end.

Fixpoint pack_loop (pieces : list Piece) (st : PackState)
  : outcome (option Layout) :=
  match pieces with
  | [] => Value (Some (snd st))
  | p :: rest =>
      r <- pack_step st p ;;
      match r with
      | None => Value None
      | Some st' => pack_loop rest st'
      end
  end.

Definition initial_state : PackState := ([(0, 0, ROLL_WIDTH, 10000)], []).

Definition pack (pieces : list Piece) : outcome (option Layout) :=
  pack_loop pieces initial_state.

End Packing.

(** ** Multi-pass search *)

Section Search.

Variable ROLL_WIDTH : Q.
Variable ITERATIONS : nat.

(** The random source and [random.shuffle] over it. *)
Variable Rng : Type.
Variable shuffle : Rng -> list Piece -> list Piece * Rng.

(** What [optimize] can reach and change besides its locals: the list
    object its caller passed in, and the state of the random source. *)
Record Store : Type := mkStore {
  pieces_obj : list Piece;
  rng : Rng
}.

(** [random.shuffle(pieces)]: rearranges the caller's list in place. *)
Definition random_shuffle (s : Store) : Store :=
  let '(l, g) := shuffle (rng s) (pieces_obj s) in mkStore l g.

(** [pack(pieces)] as a call on the store: it iterates the list and
    builds fresh [free] and [placed] lists. *)
Definition call_pack (s : Store) : outcome (option Layout * Store) :=
  layout <- pack ROLL_WIDTH (pieces_obj s) ;; Value (layout, s).

(** [not best_len or l < best_len]: [None] and the number zero are
    falsy. *)
Definition improves (best_len : option Q) (l : Q) : bool :=
  match best_len with
  | None => true
  | Some b => Qeq_bool b 0 || Qltb l b
  end.

(** The [for _ in range(ITERATIONS)] loop of [optimize], [n] passes left.
    [if layout:] is false for [None] and for the empty list. *)
Fixpoint optimize_loop (n : nat) (best_len : option Q)
  (best_layout : option Layout) (s : Store)
  : outcome (option Layout * option Q * Store) :=
  match n with
  | O => Value (best_layout, best_len, s)
  | S n' =>
      let s := random_shuffle s in
      r <- call_pack s ;;
      let '(layout, s) := r in
      match layout with
      | Some (pl :: rest) =>
          l <- length (pl :: rest) ;;
          if improves best_len l
          then optimize_loop n' (Some l) (Some (pl :: rest)) s
          else optimize_loop n' best_len best_layout s
      | _ => optimize_loop n' best_len best_layout s
      end
  end.

(** [optimize(pieces)] returns [(best_layout, best_len)]; the final store
    is returned with it. *)
Definition optimize (s : Store)
  : outcome (option Layout * option Q * Store) :=
  optimize_loop ITERATIONS None None s.

End Search.

Arguments mkStore {Rng} _ _.
Arguments pieces_obj {Rng} _.
Arguments rng {Rng} _.
Arguments random_shuffle {Rng} shuffle s.
Arguments call_pack ROLL_WIDTH {Rng} s.
Arguments optimize_loop ROLL_WIDTH {Rng} shuffle n best_len best_layout s.
Arguments optimize ROLL_WIDTH ITERATIONS {Rng} shuffle s.

(** ** Vocabulary of the specification *)

Section TilingSpec.

Variables OVERLAP ROLL_WIDTH : Q.

(** The pieces one job contributes: [q * n] copies of the piece carrying
    the strip in both orientations. *)
Definition job_block (j : Job) (block : list Piece) : Prop :=
  let '(pid, w, h, q) := j in
  exists tile_w n,
    tile_width_only OVERLAP w ROLL_WIDTH = Some (tile_w, n) /\
    block = repeat (mkPiece pid [(tile_w, h); (h, tile_w)])
              (q * Z.to_nat n) /\
    Z.of_nat (List.length block) = (Z.of_nat q * n)%Z.

Definition untileable (j : Job) : Prop :=
  let '(_, w, _, _) := j in tile_width_only OVERLAP w ROLL_WIDTH = None.

End TilingSpec.

(** A piece in orientation [o] fits the free rectangle [f]. *)
Definition fits (f : FreeRect) (o : Q * Q) : Prop :=
  let '(_, _, fw, fh) := f in
  let '(w, h) := o in
  w <= fw /\ h <= fh.

(** The leftover area [freeArea - pieceArea]. *)
Definition waste_of (f : FreeRect) (o : Q * Q) : Q :=
  let '(_, _, fw, fh) := f in
  let '(w, h) := o in
  fw * fh - w * h.

(** The (free rectangle, orientation) pairs in the order [pack] visits
    them: free rectangles in list order, and for each of them the
    orientations in list order. *)
Definition candidates (free : list FreeRect) (os : list (Q * Q))
  : list (FreeRect * (Q * Q)) :=
  flat_map (fun f => map (pair f) os) free.

(** The value of [best] that records the pair [(f, o)]. *)
Definition best_for (f : FreeRect) (o : Q * Q) : Best :=
  let '(fx, fy, fw, fh) := f in
  let '(w, h) := o in
  (fw * fh - w * h, fx, fy, fw, fh, w, h).

(** A split region enters the free list only with both dimensions
    strictly positive. *)
Definition kept_if_positive (r : FreeRect) (part : list FreeRect) : Prop :=
  let '(_, _, rw, rh) := r in
  (0 < rw /\ 0 < rh /\ part = [r]) \/ (~ (0 < rw /\ 0 < rh) /\ part = []).

(** The loop of [pack] with its state exposed: the state after all of
    [pieces], [Value None] after the early return. *)
Fixpoint run_steps (pieces : list Piece) (st : PackState)
  : outcome (option PackState) :=
  match pieces with
  | [] => Value (Some st)
  | p :: rest =>
      r <- pack_step st p ;;
      match r with
      | None => Value None
      | Some st' => run_steps rest st'
      end
  end.

(** The placement [pl] is the piece [p] in one of its orientations. *)
Definition placement_of (p : Piece) (pl : Placed) : Prop :=
  let '(id, _, _, w, h) := pl in
  id = pid p /\ In (w, h) (orientations p).

(** The rectangle a placement covers. *)
Definition rect_of (pl : Placed) : FreeRect :=
  let '(_, x, y, w, h) := pl in (x, y, w, h).

(** Two rectangles are separated by a vertical or a horizontal line. *)
Definition separated (a b : FreeRect) : Prop :=
  let '(ax, ay, aw, ah) := a in
  let '(bx, by_, bw, bh) := b in
  ax + aw <= bx \/ bx + bw <= ax \/ ay + ah <= by_ \/ by_ + bh <= ay.

(** A rectangle lies within the roll: [0, roll] across the width (the
    axis of [x] and [w]) and [0, 10000] along the length. *)
Definition within_roll (roll : Q) (r : FreeRect) : Prop :=
  let '(x, y, w, h) := r in
  0 <= x /\ x + w <= roll /\ 0 <= y /\ y + h <= 10000.

(** Every orientation of the piece has non-negative, respectively
    strictly positive, dimensions. *)
Definition nonneg_piece (p : Piece) : Prop :=
  Forall (fun o : Q * Q => 0 <= fst o /\ 0 <= snd o) (orientations p).

Definition positive_piece (p : Piece) : Prop :=
  Forall (fun o : Q * Q => 0 < fst o /\ 0 < snd o) (orientations p).

(** The orders of the pieces the passes of [optimize] pack, and the store
    once they are over. *)
Section SearchSpec.

Variable ROLL_WIDTH : Q.
Variable Rng : Type.
Variable shuffle : Rng -> list Piece -> list Piece * Rng.

Fixpoint attempts (n : nat) (s : Store Rng) : list (list Piece) :=
  match n with
  | O => []
  | S n' =>
      let s1 := random_shuffle shuffle s in
      pieces_obj s1 :: attempts n' s1
  end.

Fixpoint final_store (n : nat) (s : Store Rng) : Store Rng :=
  match n with
  | O => s
  | S n' => final_store n' (random_shuffle shuffle s)
  end.

(** A pass counts when [pack] returns a layout that has a length. *)
Definition attempt_result (ps : list Piece) : option (Layout * Q) :=
  match pack ROLL_WIDTH ps with
  | Value (Some layout) =>
      match length layout with
      | Value l => Some (layout, l)
      | ValueError => None
      end
  | _ => None
  end.

(** The best pass among [seen]: none when no pass counts, otherwise
    the first of the passes of least length. *)
Definition best_so_far (seen : list (list Piece))
  (best_layout : option Layout) (best_len : option Q) : Prop :=
  match best_layout, best_len with
  | None, None => Forall (fun ps => attempt_result ps = None) seen
  | Some layout, Some m =>
      0 < m /\
      exists o1 ps o2,
        seen = o1 ++ ps :: o2 /\
        attempt_result ps = Some (layout, m) /\
        Forall (fun ps' => forall layout' l',
                    attempt_result ps' = Some (layout', l') -> m < l') o1 /\
        Forall (fun ps' => forall layout' l',
                    attempt_result ps' = Some (layout', l') -> m <= l') o2
  | _, _ => False
  end.

End SearchSpec.

Arguments attempts {Rng} shuffle n s.
Arguments final_store {Rng} shuffle n s.

(** A shuffle for examples: it reverses the list. *)
Definition reversing_shuffle (g : unit) (l : list Piece) : list Piece * unit :=
  (rev l, g).

(** ** Vocabulary of the proofs *)

(** The scan over a list of pairs, given as one loop. *)
Definition scan_pairs (cands : list (FreeRect * (Q * Q))) (best : option Best)
  : option Best :=
  fold_left (fun b c => consider (fst c) (snd c) b) cands best.

(** What [best] records once the pairs [seen] have been visited: nothing
    when none of them fits, otherwise the first of the fitting pairs of
    least waste. *)
Definition first_least (seen : list (FreeRect * (Q * Q))) (best : option Best)
  : Prop :=
  match best with
  | None => Forall (fun c => ~ fits (fst c) (snd c)) seen
  | Some b =>
      exists c1 f o c2,
        seen = c1 ++ (f, o) :: c2 /\ b = best_for f o /\ fits f o /\
        Forall (fun c => fits (fst c) (snd c) ->
                         waste_of f o < waste_of (fst c) (snd c)) c1 /\
        Forall (fun c => fits (fst c) (snd c) ->
                         waste_of f o <= waste_of (fst c) (snd c)) c2
  end.

(** [a] lies inside [b]. *)
Definition contained (a b : FreeRect) : Prop :=
  let '(ax, ay, aw, ah) := a in
  let '(bx, by_, bw, bh) := b in
  bx <= ax /\ ax + aw <= bx + bw /\ by_ <= ay /\ ay + ah <= by_ + bh.

(** The free rectangles and the rectangles of the placements all lie
    within the roll and are pairwise separated. *)
Definition tiling_state (roll : Q) (st : PackState) : Prop :=
  let free := fst st in
  let placed := map rect_of (snd st) in
  Forall (within_roll roll) free /\
  Forall (within_roll roll) placed /\
  ForallOrdPairs separated free /\
  ForallOrdPairs separated placed /\
  (forall a b, In a placed -> In b free -> separated a b).

(** ** Instances *)

(** Four 50 x 50 pieces, as [expand] builds them for one job of
    quantity 4 on a roll of width 137. *)
Definition four_squares : list Piece :=
  repeat (mkPiece 1 [(50, 50); (50, 50)]) 4.

(** The specification's scenario: one panel 300 wide and 50 high. *)
Definition wide_panel : list Job := [(1%Z, 300, 50, 1%nat)].

(** Two distinct pieces. *)
Definition two_panels : list Piece :=
  [mkPiece 1 [(50, 60); (60, 50)]; mkPiece 2 [(70, 80); (80, 70)]].

(** ** The roll finder, the job list and the run *)

(** [ROLL_WIDTHS]: the stock widths, integer literals used as numbers. *)
Definition ROLL_WIDTHS : list Q :=
  [50; 51; 91; 94; 100; 105; 106; 110; 112; 120;
   127; 137; 152; 160; 162; 200; 240; 250;
   257; 260; 310; 320].

(** The two orientation labels: the string "Normal" and the string
    "Rotated 90" with the degree sign. *)
Inductive Orientation : Type :=
| Normal
| Rotated90.

(** A result row is the tuple [(roll, orientation, used length, waste)]. *)
Definition Row : Type := (Q * Orientation * Q * Q)%type.

(** Body of the [for roll in ROLL_WIDTHS] loop of [find_top10]: up to two
    appends to [results]. *)
Definition rows_for (art_w art_h roll : Q) (results : list Row) : list Row :=
  let results :=
    if Qle_bool art_w roll
    then results ++ [(roll, Normal, art_h, roll * art_h - art_w * art_h)]
    else results in
  let results :=
    if Qle_bool art_h roll
    then results ++ [(roll, Rotated90, art_w, roll * art_w - art_w * art_h)]
    else results in
  results.

Fixpoint collect_rows (art_w art_h : Q) (rolls : list Q) (results : list Row)
  : list Row :=
  match rolls with
  | [] => results
  | roll :: rest =>
      collect_rows art_w art_h rest (rows_for art_w art_h roll results)
  end.

(** Python's [<] on the sort keys [(x[3], x[0])] of two rows: the wastes
    decide unless they are equal, then the roll widths do. *)
Definition key_lt (a b : Row) : bool :=
  let '(roll_a, _, _, waste_a) := a in
  let '(roll_b, _, _, waste_b) := b in
  Qltb waste_a waste_b || (Qeq_bool waste_a waste_b && Qltb roll_a roll_b).

(** [list.sort] is a stable sort by [<] on the keys; its result is the one
    of this stable insertion sort. *)
Fixpoint insert_row (x : Row) (sorted : list Row) : list Row :=
  match sorted with
  | [] => [x]
  | y :: rest => if key_lt y x then y :: insert_row x rest else x :: y :: rest
  end.

Fixpoint sort_rows (rows : list Row) : list Row :=
  match rows with
  | [] => []
  | x :: rest => insert_row x (sort_rows rest)
  end.

(** [find_top10(art_w, art_h)]; [results[:10]] is [firstn 10]. *)
Definition find_top10 (art_w art_h : Q) : list Row :=
  firstn 10 (sort_rows (collect_rows art_w art_h ROLL_WIDTHS [])).

(** The loop that fills [jobs] from the sidebar: [inputs] holds the
    readings [(w, h, q)] of the panels [i], [i+1], ... in order, and a
    panel enters the list when [w > 0 and h > 0 and q > 0]. *)
Fixpoint collect_jobs (i : Z) (inputs : list (Q * Q * nat)) (jobs : list Job)
  : list Job :=
  match inputs with
  | [] => jobs
  | (w, h, q) :: rest =>
      collect_jobs (i + 1) rest
        (if Qltb 0 w && Qltb 0 h && Nat.ltb 0 q
         then jobs ++ [(i, w, h, q)]
         else jobs)
  end.

(** [for i in range(1, panel_count + 1)], from the empty list. *)
Definition read_jobs (inputs : list (Q * Q * nat)) : list Job :=
  collect_jobs 1 inputs [].

(** What pressing "Run RIP Optimizer" leads to, up to the results table:
    the error message followed by [st.stop()], an exception, or the
    reported length in meters with the rows [(pid, w, h)] of the table. *)
Inductive RunResult : Type :=
| Stopped
| RaisedTypeError
| RaisedValueError
| Shown (meters : Q) (table : list (Z * Q * Q)).

Section Run.

Variables ROLL_WIDTH OVERLAP : Q.
Variable ITERATIONS : nat.
Variable Rng : Type.
Variable shuffle : Rng -> list Piece -> list Piece * Rng.

(** The body of [if st.button("Run RIP Optimizer")].  [not pieces] holds
    for [None] and for the empty list; [total/100] and the iteration over
    [best] raise [TypeError] on [None]. *)
Definition run_optimizer (jobs : list Job) (g : Rng) : RunResult :=
  match expand OVERLAP ROLL_WIDTH jobs with
  | None => Stopped
  | Some [] => Stopped
  | Some (p :: rest) =>
      match optimize ROLL_WIDTH ITERATIONS shuffle (mkStore (p :: rest) g) with
      | ValueError => RaisedValueError
      | Value (best, total, _) =>
          match total with
          | None => RaisedTypeError
          | Some t =>
              match best with
              | None => RaisedTypeError
              | Some layout =>
                  Shown (t / 100)
                    (map (fun pl : Placed =>
                            let '(p, _, _, w, h) := pl in (p, w, h)) layout)
              end
          end
      end
  end.

End Run.

Arguments run_optimizer ROLL_WIDTH OVERLAP ITERATIONS {Rng} shuffle jobs g.

(** The order of the keys [(waste, roll)]: [a] does not come after [b]. *)
Definition key_le (a b : Row) : Prop :=
  let '(roll_a, _, _, waste_a) := a in
  let '(roll_b, _, _, waste_b) := b in
  waste_a < waste_b \/ (waste_a == waste_b /\ roll_a <= roll_b).

(** A row is one of the options of the artwork on the widths [rolls]: a
    width on which it fits as it is or turned, with the length used and
    the waste. *)
Definition option_row (rolls : list Q) (art_w art_h : Q) (r : Row) : Prop :=
  let '(roll, o, used, waste) := r in
  In roll rolls /\
  match o with
  | Normal =>
      art_w <= roll /\ used = art_h /\ waste = roll * art_h - art_w * art_h
  | Rotated90 =>
      art_h <= roll /\ used = art_w /\ waste = roll * art_w - art_w * art_h
  end.

(** One panel 1 wide and 20000 high: longer than the working area. *)
Definition tall_panel : list Job := [(1%Z, 1, 20000, 1%nat)].

(** A piece too wide for a roll of 137 unless it is turned. *)
Definition turned_piece : Piece := mkPiece 1 [(150, 60); (60, 150)].

(** ** The packer in binary64

    The program's numbers are binary64 floats; the model above computes
    with exact rationals.  [Binary64] is the same packer and [length]
    over Rocq's primitive floats, whose operations round as Python's do.
    It serves to evaluate the program on concrete inputs where rounding
    matters. *)

Module Binary64.

Local Open Scope float_scope.

Record Piece : Type := mkPiece {
  pid : Z;
  orientations : list (float * float)
}.

Definition FreeRect : Type := (float * float * float * float)%type.

Definition Placed : Type := (Z * float * float * float * float)%type.

Definition Layout : Type := list Placed.

Definition Best : Type :=
  (float * float * float * float * float * float * float)%type.

Definition best_waste (b : Best) : float :=
  let '(waste, _, _, _, _, _, _) := b in waste.

Definition consider (f : FreeRect) (o : float * float) (best : option Best)
  : option Best :=
  let '(fx, fy, fw, fh) := f in
  let '(w, h) := o in
  if PrimFloat.leb w fw && PrimFloat.leb h fh then
    let waste := fw * fh - w * h in
    if match best with
       | None => true
       | Some b => PrimFloat.ltb waste (best_waste b)
       end
    then Some (waste, fx, fy, fw, fh, w, h)
    else best
  else best.

Fixpoint scan_orientations (f : FreeRect) (os : list (float * float))
  (best : option Best) : option Best :=
  match os with
  | [] => best
  | o :: os' => scan_orientations f os' (consider f o best)
  end.

Fixpoint scan_free (free : list FreeRect) (os : list (float * float))
  (best : option Best) : option Best :=
  match free with
  | [] => best
  | f :: free' => scan_free free' os (scan_orientations f os best)
  end.

Definition rect_eqb (a b : FreeRect) : bool :=
  let '(ax, ay, aw, ah) := a in
  let '(bx, by_, bw, bh) := b in
  PrimFloat.eqb ax bx && PrimFloat.eqb ay by_
  && PrimFloat.eqb aw bw && PrimFloat.eqb ah bh.

Fixpoint list_remove (r : FreeRect) (l : list FreeRect)
  : outcome (list FreeRect) :=
  match l with
  | [] => ValueError
  | x :: t =>
      if rect_eqb x r then Value t
      else t' <- list_remove r t ;; Value (x :: t')
  end.

Definition PackState : Type := (list FreeRect * Layout)%type.

Definition pack_step (st : PackState) (p : Piece)
  : outcome (option PackState) :=
  let '(free, placed) := st in
  match scan_free free (orientations p) None with
  | None => Value None
  | Some (_, fx, fy, fw, fh, w, h) =>
      let placed := placed ++ [(pid p, fx, fy, w, h)] in
      free <- list_remove (fx, fy, fw, fh) free ;;
      let right := (fx + w, fy, fw - w, h) in
      let bottom := (fx, fy + h, fw, fh - h) in
      let free :=
        if PrimFloat.ltb 0 (fw - w) && PrimFloat.ltb 0 h
        then free ++ [right] else free in
      let free :=
        if PrimFloat.ltb 0 fw && PrimFloat.ltb 0 (fh - h)
        then free ++ [bottom] else free in
      Value (Some (free, placed))
  end.

Fixpoint pack_loop (pieces : list Piece) (st : PackState)
  : outcome (option Layout) :=
  match pieces with
  | [] => Value (Some (snd st))
  | p :: rest =>
      r <- pack_step st p ;;
      match r with
      | None => Value None
      | Some st' => pack_loop rest st'
      end
  end.

Definition pack (ROLL_WIDTH : float) (pieces : list Piece)
  : outcome (option Layout) :=
  pack_loop pieces ([(0, 0, ROLL_WIDTH, 10000)], []).

Definition py_max (l : list float) : outcome float :=
  match l with
  | [] => ValueError
  | x :: t =>
      Value (fold_left (fun m y => if PrimFloat.ltb m y then y else m) t x)
  end.

Definition length (placed : Layout) : outcome float :=
  py_max (map (fun pl : Placed => let '(_, _, y, _, h) := pl in y + h) placed).

(** The rational a finite float stands for. *)
Definition exact (f : float) : Q :=
  match Prim2SF f with
  | S754_finite s m e =>
      (inject_Z (if s then Z.neg m else Z.pos m) * Qpower 2 e)%Q
  | _ => 0%Q
  end.


End Binary64.





(** Two panels of height zero. *)
Definition flat_panels : list Piece :=
  [mkPiece 1 [(10, 0); (0, 10)]; mkPiece 2 [(20, 0); (0, 20)]].

(** Two panels 1000 wide: too wide for five strips on a roll of 137. *)
Definition oversize_panel : list Job := [(1%Z, 1000, 50, 2%nat)].

(** * Properties *)

Lemma Qltb_iff (a b : Q) : Qltb a b = true <-> a < b.
Proof.
  unfold Qltb. rewrite negb_true_iff.
  split; intro H.
  - apply Qnot_le_lt. intro Hle. apply Qle_bool_iff in Hle. congruence.
  - destruct (Qle_bool b a) eqn:E; [|reflexivity].
    apply Qle_bool_iff in E. exfalso. apply (Qlt_not_le _ _ H E).
Qed.

Lemma Qltb_false_iff (a b : Q) : Qltb a b = false <-> b <= a.
Proof.
  unfold Qltb. rewrite negb_false_iff. apply Qle_bool_iff.
Qed.

Lemma Qle_bool_false_iff (a b : Q) : Qle_bool a b = false <-> b < a.
Proof.
  rewrite <- Qltb_iff. unfold Qltb. rewrite negb_true_iff. reflexivity.
Qed.

(** ** Tiling *)

Section TilingFacts.

Variable OVERLAP : Q.

Lemma tile_loop_some (w roll : Q) (ns : list Z) (s : Q) (n : Z) :
  tile_loop OVERLAP w roll ns = Some (s, n) ->
  exists pre post,
    ns = pre ++ n :: post /\
    Forall (fun m => ~ tile_bound OVERLAP w roll m) pre /\
    tile_bound OVERLAP w roll n /\ s = strip_width OVERLAP w n.
Proof.
  induction ns as [|m ns IH]; simpl; [discriminate|].
  destruct (Qle_bool _ _) eqn:E.
  - intros [= <- <-]. exists [], ns. apply Qle_bool_iff in E.
    repeat split; auto.
  - intros H. destruct (IH H) as (pre & post & -> & Hpre & Hn & Hs).
    exists (m :: pre), post. repeat split; auto.
    constructor; auto. apply Qle_bool_false_iff in E.
    unfold tile_bound. intro Hm. apply (Qlt_not_le _ _ E Hm).
Qed.

Lemma tile_loop_first (w roll : Q) (pre post : list Z) (n : Z) :
  Forall (fun m => ~ tile_bound OVERLAP w roll m) pre ->
  tile_bound OVERLAP w roll n ->
  tile_loop OVERLAP w roll (pre ++ n :: post)
  = Some (strip_width OVERLAP w n, n).
Proof.
  intros Hpre Hn. induction Hpre as [|m pre Hm _ IH]; simpl.
  - apply Qle_bool_iff in Hn. rewrite Hn. reflexivity.
  - destruct (Qle_bool _ _) eqn:E; [|exact IH].
    apply Qle_bool_iff in E. contradiction.
Qed.

Lemma tile_loop_none (w roll : Q) (ns : list Z) :
  tile_loop OVERLAP w roll ns = None <->
  Forall (fun m => ~ tile_bound OVERLAP w roll m) ns.
Proof.
  induction ns as [|m ns IH]; simpl.
  - split; auto.
  - destruct (Qle_bool _ _) eqn:E.
    + apply Qle_bool_iff in E. split; [discriminate|].
      intros H. inversion H; subst. contradiction.
    + apply Qle_bool_false_iff in E. rewrite IH. split.
      * intros H. constructor; auto.
        intro Hm. apply (Qlt_not_le _ _ E Hm).
      * intros H. inversion H; auto.
Qed.

(** The candidate list is [1..5] in increasing order. *)
Lemma tile_counts_split (pre post : list Z) (n : Z) :
  [1; 2; 3; 4; 5]%Z = pre ++ n :: post ->
  (1 <= n <= 5)%Z /\ forall m, (1 <= m < n)%Z -> In m pre.
Proof.
  intros H.
  do 5 (destruct pre as [|? pre];
        [injection H as <- _; split; [lia|intros m Hm; simpl; lia]|
         injection H as <- H]).
  destruct pre; discriminate.
Qed.

Lemma tile_counts_below (n : Z) :
  (1 <= n <= 5)%Z ->
  exists pre post,
    [1; 2; 3; 4; 5]%Z = pre ++ n :: post /\
    forall m, In m pre -> (1 <= m < n)%Z.
Proof.
  intros Hn.
  assert (n = 1 \/ n = 2 \/ n = 3 \/ n = 4 \/ n = 5)%Z
    as [->|[->|[->|[->| ->]]]] by lia.
  - exists [], [2; 3; 4; 5]%Z. split; [reflexivity|]. simpl. tauto.
  - exists [1]%Z, [3; 4; 5]%Z. split; [reflexivity|]. simpl. lia.
  - exists [1; 2]%Z, [4; 5]%Z. split; [reflexivity|]. simpl. lia.
  - exists [1; 2; 3]%Z, [5]%Z. split; [reflexivity|]. simpl. lia.
  - exists [1; 2; 3; 4]%Z, []. split; [reflexivity|]. simpl. lia.
Qed.

(** What [tile_width_only] returns, in terms of the bound alone. *)
Lemma tile_width_only_some (w roll s : Q) (N : Z) :
  tile_width_only OVERLAP w roll = Some (s, N) <->
  (1 <= N <= 5)%Z /\ tile_bound OVERLAP w roll N /\
  (forall M, (1 <= M < N)%Z -> ~ tile_bound OVERLAP w roll M) /\
  s = strip_width OVERLAP w N.
Proof.
  unfold tile_width_only. split.
  - intros H. apply tile_loop_some in H.
    destruct H as (pre & post & Hsplit & Hpre & Hn & Hs).
    apply tile_counts_split in Hsplit. destruct Hsplit as [Hr Hin].
    repeat split; try tauto.
    intros M HM. rewrite Forall_forall in Hpre. apply Hpre, Hin, HM.
  - intros (Hr & Hn & Hmin & ->).
    destruct (tile_counts_below N Hr) as (pre & post & -> & Hin).
    apply tile_loop_first; auto.
    apply Forall_forall. intros m Hm. apply Hmin, Hin, Hm.
Qed.

Lemma tile_width_only_none (w roll : Q) :
  tile_width_only OVERLAP w roll = None <->
  forall N, (1 <= N <= 5)%Z -> ~ tile_bound OVERLAP w roll N.
Proof.
  unfold tile_width_only. rewrite tile_loop_none, Forall_forall.
  split.
  - intros H N HN. apply H. simpl. lia.
  - intros H N HN. apply H. simpl in HN. lia.
Qed.

Lemma strip_width_one (w : Q) : strip_width OVERLAP w 1 == w.
Proof.
  unfold strip_width. change (inject_Z (1 - 1)) with 0.
  change (inject_Z 1) with 1. field.
Qed.

Lemma tile_bound_one (w roll : Q) : tile_bound OVERLAP w roll 1 <-> w <= roll.
Proof.
  unfold tile_bound. change (inject_Z (1 - 1)) with 0.
  change (inject_Z 1) with 1. split; intro H; lra.
Qed.

(** C1.  [tile_width_only] tries N = 1..5 in increasing order and returns
    [((w + (N-1)*overlap) / N, N)] for the smallest N with
    [w <= N*roll - (N-1)*overlap]; it returns [(None, None)] exactly when
    no N in 1..5 satisfies that bound; for [w <= roll] it returns a strip
    width equal to [w] with N = 1. *)
Theorem tile_width_only_smallest_fit (w roll : Q) :
  (forall N,
      (1 <= N <= 5)%Z ->
      tile_bound OVERLAP w roll N ->
      (forall M, (1 <= M < N)%Z -> ~ tile_bound OVERLAP w roll M) ->
      tile_width_only OVERLAP w roll = Some (strip_width OVERLAP w N, N)) /\
  (forall s N,
      tile_width_only OVERLAP w roll = Some (s, N) ->
      (1 <= N <= 5)%Z /\ tile_bound OVERLAP w roll N /\
      (forall M, (1 <= M < N)%Z -> ~ tile_bound OVERLAP w roll M) /\
      s = (w + inject_Z (N - 1) * OVERLAP) / inject_Z N) /\
  (tile_width_only OVERLAP w roll = None <->
   forall N, (1 <= N <= 5)%Z -> ~ tile_bound OVERLAP w roll N) /\
  (w <= roll ->
   exists s, tile_width_only OVERLAP w roll = Some (s, 1%Z) /\ s == w).
Proof.
  split; [|split; [|split]].
  - intros N Hr Hb Hmin. apply tile_width_only_some. auto.
  - intros s N H. apply tile_width_only_some in H. exact H.
  - apply tile_width_only_none.
  - intros Hw. exists (strip_width OVERLAP w 1). split.
    + apply tile_width_only_some. repeat split; try lia.
      apply tile_bound_one, Hw.
    + apply strip_width_one.
Qed.

End TilingFacts.

(** A larger overlap only tightens the bound of a given tile count. *)
Lemma tile_bound_antitone (o1 o2 w roll : Q) (n : Z) :
  (1 <= n)%Z -> o1 <= o2 ->
  tile_bound o2 w roll n -> tile_bound o1 w roll n.
Proof.
  unfold tile_bound. intros Hn Ho Hb.
  assert (0 <= inject_Z (n - 1)) as Hk.
  { change 0 with (inject_Z 0). rewrite <- Zle_Qle. lia. }
  assert (inject_Z (n - 1) * o1 <= inject_Z (n - 1) * o2) as Hmul.
  { rewrite !(Qmult_comm (inject_Z (n - 1))).
    apply Qmult_le_compat_r; assumption. }
  lra.
Qed.

(** C8.  With [w] and [roll] fixed, the tile count chosen by
    [tile_width_only] is monotone in the overlap: when it is defined at
    [o1 <= o2], the count at [o1] is at most the count at [o2]. *)
Theorem tile_count_monotone_in_overlap
  (w roll o1 o2 s1 s2 : Q) (N1 N2 : Z) :
  o1 <= o2 ->
  tile_width_only o1 w roll = Some (s1, N1) ->
  tile_width_only o2 w roll = Some (s2, N2) ->
  (N1 <= N2)%Z.
Proof.
  intros Ho H1 H2.
  apply tile_width_only_some in H1. destruct H1 as (Hr1 & _ & Hmin1 & _).
  apply tile_width_only_some in H2. destruct H2 as (Hr2 & Hb2 & _ & _).
  destruct (Z_le_gt_dec N1 N2) as [Hle|Hgt]; [exact Hle|].
  exfalso. apply (Hmin1 N2); [lia|].
  apply (tile_bound_antitone o1 o2); [lia|assumption|assumption].
Qed.

(** ** Expansion of the demand list *)

Section ExpandFacts.

Variables OVERLAP ROLL_WIDTH : Q.

Lemma append_n_repeat (n : nat) (p : Piece) (pieces : list Piece) :
  append_n n p pieces = pieces ++ repeat p n.
Proof.
  revert pieces. induction n as [|n IH]; intros pieces; simpl.
  - now rewrite app_nil_r.
  - rewrite IH, <- app_assoc. reflexivity.
Qed.

Lemma append_q_repeat (q n : nat) (p : Piece) (pieces : list Piece) :
  append_q q n p pieces = pieces ++ repeat p (q * n).
Proof.
  revert pieces. induction q as [|q IH]; intros pieces; simpl.
  - now rewrite app_nil_r.
  - rewrite IH, append_n_repeat, <- app_assoc, repeat_app. reflexivity.
Qed.

Lemma expand_loop_some (jobs : list Job) (acc pieces : list Piece) :
  expand_loop OVERLAP ROLL_WIDTH jobs acc = Some pieces ->
  exists blocks,
    pieces = acc ++ concat blocks /\
    Forall2 (job_block OVERLAP ROLL_WIDTH) jobs blocks.
Proof.
  revert acc. induction jobs as [|[[[pid w] h] q] jobs IH]; intros acc; simpl.
  - intros [= <-]. exists []. simpl. rewrite app_nil_r. split; constructor.
  - destruct (tile_width_only OVERLAP w ROLL_WIDTH) as [[tile_w n]|] eqn:E;
      [|discriminate].
    intros H. apply IH in H. destruct H as (blocks & -> & Hblocks).
    rewrite append_q_repeat, <- app_assoc.
    eexists (_ :: blocks). split; [reflexivity|].
    constructor; [|exact Hblocks].
    exists tile_w, n. repeat split; auto.
    rewrite repeat_length, Nat2Z.inj_mul, Z2Nat.id; [reflexivity|].
    apply tile_width_only_some in E. lia.
Qed.

Lemma expand_loop_none (jobs : list Job) (acc : list Piece) :
  expand_loop OVERLAP ROLL_WIDTH jobs acc = None <->
  Exists (untileable OVERLAP ROLL_WIDTH) jobs.
Proof.
  revert acc. induction jobs as [|[[[pid w] h] q] jobs IH]; intros acc; simpl.
  - split; [discriminate|]. intros H. inversion H.
  - destruct (tile_width_only OVERLAP w ROLL_WIDTH) as [[tile_w n]|] eqn:E.
    + rewrite IH. split; [apply Exists_cons_tl|].
      intros H. inversion H as [? ? Hu|]; subst; [|assumption].
      simpl in Hu. congruence.
    + split; [|reflexivity]. intros _. apply Exists_cons_hd. exact E.
Qed.

(** C6.  [expand] returns [None] exactly when some job's width cannot be
    tiled (nothing of the other jobs is returned then).  Otherwise its
    result is, job by job in order, a block of [q * n] pieces for the job's
    tiling [(tile_w, n)], each piece carrying the orientations
    [(tile_w, h)] and [(h, tile_w)]. *)
Theorem expand_all_or_nothing (jobs : list Job) :
  (expand OVERLAP ROLL_WIDTH jobs = None <->
   Exists (untileable OVERLAP ROLL_WIDTH) jobs) /\
  (forall pieces,
      expand OVERLAP ROLL_WIDTH jobs = Some pieces ->
      exists blocks,
        pieces = concat blocks /\
        Forall2 (job_block OVERLAP ROLL_WIDTH) jobs blocks).
Proof.
  split.
  - apply expand_loop_none.
  - intros pieces H. apply expand_loop_some in H. exact H.
Qed.

End ExpandFacts.

(** ** The scan for the best (free rectangle, orientation) pair *)

Lemma scan_orientations_pairs (f : FreeRect) (os : list (Q * Q))
  (best : option Best) :
  scan_orientations f os best = scan_pairs (map (pair f) os) best.
Proof.
  revert best. induction os as [|o os IH]; intros best; simpl; auto.
Qed.

Lemma scan_free_pairs (free : list FreeRect) (os : list (Q * Q))
  (best : option Best) :
  scan_free free os best = scan_pairs (candidates free os) best.
Proof.
  revert best. induction free as [|f free IH]; intros best; simpl; auto.
  rewrite IH, scan_orientations_pairs. unfold scan_pairs.
  rewrite fold_left_app. reflexivity.
Qed.

Lemma best_waste_for (f : FreeRect) (o : Q * Q) :
  best_waste (best_for f o) = waste_of f o.
Proof. destruct f as [[[fx fy] fw] fh], o as [w h]. reflexivity. Qed.

(** One visit of the inner loop body. *)
Lemma consider_cases (f : FreeRect) (o : Q * Q) (best : option Best) :
  (~ fits f o /\ consider f o best = best) \/
  (fits f o /\
   match best with
   | None => consider f o best = Some (best_for f o)
   | Some b =>
       (waste_of f o < best_waste b /\
        consider f o best = Some (best_for f o)) \/
       (best_waste b <= waste_of f o /\ consider f o best = best)
   end).
Proof.
  destruct f as [[[fx fy] fw] fh], o as [w h]. unfold consider, fits.
  destruct (Qle_bool w fw) eqn:Ew; simpl.
  - destruct (Qle_bool h fh) eqn:Eh; simpl.
    + apply Qle_bool_iff in Ew, Eh. right. split; [auto|].
      destruct best as [b|]; [|reflexivity].
      destruct (Qltb _ _) eqn:El.
      * apply Qltb_iff in El. left. auto.
      * apply Qltb_false_iff in El. right. auto.
    + apply Qle_bool_false_iff in Eh. left. split; [|reflexivity].
      intros [_ H]. apply (Qlt_not_le _ _ Eh H).
  - apply Qle_bool_false_iff in Ew. left. split; [|reflexivity].
    intros [H _]. apply (Qlt_not_le _ _ Ew H).
Qed.

Lemma first_least_step (seen : list (FreeRect * (Q * Q)))
  (f : FreeRect) (o : Q * Q) (best : option Best) :
  first_least seen best ->
  first_least (seen ++ [(f, o)]) (consider f o best).
Proof.
  intros Hinv.
  destruct (consider_cases f o best) as [[Hnf ->]|[Hf Hc]].
  - (* the pair does not fit: [best] is unchanged *)
    destruct best as [b|]; simpl in *.
    + destruct Hinv as (c1 & g & p & c2 & -> & Hb & Hg & H1 & H2).
      exists c1, g, p, (c2 ++ [(f, o)]). rewrite <- app_assoc. simpl.
      repeat split; auto. apply Forall_app. split; auto.
      constructor; [|constructor]. simpl. tauto.
    + apply Forall_app. split; auto.
  - destruct best as [b|].
    + destruct Hc as [[Hlt ->]|[Hle ->]]; simpl in *;
        destruct Hinv as (c1 & g & p & c2 & -> & -> & Hg & H1 & H2);
        rewrite best_waste_for in *.
      * (* strictly less waste: the new pair replaces [best] *)
        exists (c1 ++ (g, p) :: c2), f, o, []. repeat split; auto.
        apply Forall_app. split; [|constructor].
        -- eapply Forall_impl; [|exact H1]. intros c Hc Hfit.
           apply Hc in Hfit. lra.
        -- simpl. intros _. exact Hlt.
        -- eapply Forall_impl; [|exact H2]. intros c Hc Hfit.
           apply Hc in Hfit. lra.
      * (* not less: the earlier pair is kept *)
        exists c1, g, p, (c2 ++ [(f, o)]). rewrite <- app_assoc. simpl.
        repeat split; auto. apply Forall_app. split; auto.
    + (* first fitting pair *)
      rewrite Hc. simpl in *. exists seen, f, o, []. repeat split; auto.
      eapply Forall_impl; [|exact Hinv]. simpl. intros c Hc' Hfit.
      contradiction.
Qed.

Lemma first_least_scan (cands seen : list (FreeRect * (Q * Q)))
  (best : option Best) :
  first_least seen best ->
  first_least (seen ++ cands) (scan_pairs cands best).
Proof.
  revert seen best. induction cands as [|[f o] cands IH]; intros seen best H.
  - rewrite app_nil_r. exact H.
  - simpl. replace (seen ++ (f, o) :: cands) with ((seen ++ [(f, o)]) ++ cands)
      by (rewrite <- app_assoc; reflexivity).
    apply IH, first_least_step, H.
Qed.

Lemma scan_free_first_least (free : list FreeRect) (os : list (Q * Q)) :
  first_least (candidates free os) (scan_free free os None).
Proof.
  rewrite scan_free_pairs.
  apply (first_least_scan (candidates free os) [] None). constructor.
Qed.

Lemma in_candidates (free : list FreeRect) (os : list (Q * Q))
  (f : FreeRect) (o : Q * Q) :
  In (f, o) (candidates free os) <-> In f free /\ In o os.
Proof.
  unfold candidates. rewrite in_flat_map. split.
  - intros (g & Hg & Hin). apply in_map_iff in Hin.
    destruct Hin as (p & [= <- <-] & Hp). auto.
  - intros [Hf Ho]. exists f. split; [assumption|]. now apply in_map.
Qed.

(** A position in the visiting order is a position in [free] and, there,
    a position in the orientation list. *)
Lemma candidates_position (free : list FreeRect) (os : list (Q * Q))
  (c1 c2 : list (FreeRect * (Q * Q))) (f : FreeRect) (o : Q * Q) :
  candidates free os = c1 ++ (f, o) :: c2 ->
  exists f1 f2 o1 o2,
    free = f1 ++ f :: f2 /\ os = o1 ++ o :: o2 /\
    c1 = candidates f1 os ++ map (pair f) o1 /\
    c2 = map (pair f) o2 ++ candidates f2 os.
Proof.
  revert c1. induction free as [|g free IH]; intros c1 H.
  - destruct c1; discriminate.
  - simpl in H. apply app_eq_app in H.
    destruct H as [l [[Hl Hr]|[Hl Hr]]].
    + (* the position lies beyond the block of [g] *)
      destruct l as [|c l].
      * rewrite app_nil_r in Hl. simpl in Hr. subst c1.
        destruct (IH []) as (f1 & f2 & o1 & o2 & Hf & Ho & Hc1 & Hc2).
        { simpl. rewrite <- Hr. reflexivity. }
        exists (g :: f1), f2, o1, o2. rewrite Hf. repeat split; auto.
        simpl. rewrite <- app_assoc, <- Hc1, app_nil_r. reflexivity.
      * simpl in Hr. injection Hr as <- ->.
        apply map_eq_app in Hl. destruct Hl as (o1 & o2' & -> & <- & Hm).
        apply map_eq_cons in Hm.
        destruct Hm as (p & o2 & -> & [= -> ->] & <-).
        exists [], free, o1, o2. repeat split; auto.
    + subst c1.
      destruct (IH l) as (f1 & f2 & o1 & o2 & Hf & Ho & Hc1 & Hc2);
        [assumption|].
      exists (g :: f1), f2, o1, o2. rewrite Hf. repeat split; auto.
      simpl. rewrite Hc1, app_assoc. reflexivity.
Qed.

(** ** Removal of the chosen free rectangle *)

Lemma rect_eqb_refl (f : FreeRect) : rect_eqb f f = true.
Proof.
  destruct f as [[[x y] w] h]. unfold rect_eqb.
  rewrite !(proj2 (Qeq_bool_iff _ _) (Qeq_refl _)). reflexivity.
Qed.

Lemma rect_eqb_true (g f : FreeRect) :
  rect_eqb g f = true ->
  let '(gx, gy, gw, gh) := g in
  let '(fx, fy, fw, fh) := f in
  gx == fx /\ gy == fy /\ gw == fw /\ gh == fh.
Proof.
  destruct g as [[[gx gy] gw] gh], f as [[[fx fy] fw] fh]. unfold rect_eqb.
  rewrite !andb_true_iff, !Qeq_bool_iff. tauto.
Qed.

Lemma list_remove_first (f : FreeRect) (f1 f2 : list FreeRect) :
  Forall (fun g => rect_eqb g f = false) f1 ->
  list_remove f (f1 ++ f :: f2) = Value (f1 ++ f2).
Proof.
  induction 1 as [|g f1 Hg _ IH]; simpl.
  - now rewrite rect_eqb_refl.
  - rewrite Hg, IH. reflexivity.
Qed.

(** A rectangle equal to [f] offers the same fits at the same waste, so
    none can precede the first pair of least waste. *)
Lemma rect_eqb_fits (g f : FreeRect) (o : Q * Q) :
  rect_eqb g f = true -> fits f o -> fits g o /\ waste_of g o == waste_of f o.
Proof.
  intros He. apply rect_eqb_true in He.
  destruct g as [[[gx gy] gw] gh], f as [[[fx fy] fw] fh], o as [w h].
  destruct He as (_ & _ & Hw & Hh). unfold fits, waste_of.
  rewrite Hw, Hh. intros [? ?]. repeat split; auto with qarith.
Qed.

Lemma chosen_is_first_equal (f : FreeRect) (o : Q * Q)
  (f1 : list FreeRect) (os : list (Q * Q)) :
  In o os -> fits f o ->
  Forall (fun c => fits (fst c) (snd c) ->
                   waste_of f o < waste_of (fst c) (snd c))
         (candidates f1 os) ->
  Forall (fun g => rect_eqb g f = false) f1.
Proof.
  intros Ho Hfit Hlt. apply Forall_forall. intros g Hg.
  destruct (rect_eqb g f) eqn:E; [exfalso|reflexivity].
  destruct (rect_eqb_fits g f o E Hfit) as [Hgfit Hw].
  rewrite Forall_forall in Hlt.
  specialize (Hlt (g, o) (proj2 (in_candidates f1 os g o) (conj Hg Ho)) Hgfit).
  simpl in Hlt. rewrite Hw in Hlt. apply (Qlt_irrefl _ Hlt).
Qed.

Lemma kept_if_positive_test (x y w h : Q) :
  kept_if_positive (x, y, w, h)
    (if Qltb 0 w && Qltb 0 h then [(x, y, w, h)] else []).
Proof.
  unfold kept_if_positive.
  destruct (Qltb 0 w) eqn:Ew; simpl.
  - destruct (Qltb 0 h) eqn:Eh.
    + apply Qltb_iff in Ew, Eh. auto.
    + apply Qltb_false_iff in Eh. right. split; [|reflexivity].
      intros [_ H]. apply (Qlt_not_le _ _ H Eh).
  - apply Qltb_false_iff in Ew. right. split; [|reflexivity].
    intros [H _]. apply (Qlt_not_le _ _ H Ew).
Qed.

(** ** One step of the packer *)

(** The two outcomes of the loop body of [pack]. *)
Lemma pack_step_cases (free : list FreeRect) (placed : Layout)
  (p : Piece) :
  (pack_step (free, placed) p = Value None /\
   forall g o, In g free -> In o (orientations p) -> ~ fits g o)
  \/
  (exists f1 f2 o1 o2 fx fy fw fh w h right bottom,
      free = f1 ++ (fx, fy, fw, fh) :: f2 /\
      orientations p = o1 ++ (w, h) :: o2 /\
      w <= fw /\ h <= fh /\
      (forall g o, In g free -> In o (orientations p) -> fits g o ->
                   fw * fh - w * h <= waste_of g o) /\
      (forall g o, In g f1 -> In o (orientations p) -> fits g o ->
                   fw * fh - w * h < waste_of g o) /\
      (forall o, In o o1 -> fits (fx, fy, fw, fh) o ->
                 fw * fh - w * h < waste_of (fx, fy, fw, fh) o) /\
      kept_if_positive (fx + w, fy, fw - w, h) right /\
      kept_if_positive (fx, fy + h, fw, fh - h) bottom /\
      pack_step (free, placed) p =
        Value (Some (f1 ++ f2 ++ right ++ bottom,
                     placed ++ [(pid p, fx, fy, w, h)]))).
Proof.
  pose proof (scan_free_first_least free (orientations p)) as Hscan.
  unfold pack_step.
  destruct (scan_free free (orientations p) None) as [b|]; simpl in Hscan.
  - right.
    destruct Hscan as (c1 & f & o & c2 & Hsplit & -> & Hfit & Hlt & Hle).
    destruct (candidates_position _ _ _ _ _ _ Hsplit)
      as (f1 & f2 & o1 & o2 & Hfree & Hos & -> & ->).
    destruct f as [[[fx fy] fw] fh], o as [w h].
    apply Forall_app in Hlt. destruct Hlt as [Hlt1 Hlt2].
    assert (In (w, h) (orientations p)) as Hin.
    { rewrite Hos. apply in_elt. }
    pose proof (chosen_is_first_equal _ _ _ _ Hin Hfit Hlt1) as Hfirst.
    pose proof (kept_if_positive_test (fx + w) fy (fw - w) h) as Hright.
    pose proof (kept_if_positive_test fx (fy + h) fw (fh - h)) as Hbottom.
    exists f1, f2, o1, o2, fx, fy, fw, fh, w, h.
    eexists. eexists.
    destruct Hfit as [Hw Hh].
    split; [exact Hfree|]. split; [exact Hos|].
    split; [exact Hw|]. split; [exact Hh|].
    split; [|split; [|split; [|split; [exact Hright|split;
                                        [exact Hbottom|]]]]].
    + (* least among all fitting pairs *)
      intros g o Hg Ho Hgo.
      assert (In (g, o) (candidates free (orientations p))) as Hc
        by (apply in_candidates; auto).
      rewrite Hsplit in Hc. apply in_app_or in Hc.
      rewrite Forall_forall in Hlt1, Hlt2, Hle.
      destruct Hc as [Hc|[Hc|Hc]].
      * apply in_app_or in Hc. apply Qlt_le_weak.
        destruct Hc as [Hc|Hc]; [apply (Hlt1 _ Hc Hgo)|apply (Hlt2 _ Hc Hgo)].
      * injection Hc as <- <-. simpl. apply Qle_refl.
      * apply (Hle _ Hc Hgo).
    + (* strictly less than the pairs of earlier free rectangles *)
      intros g o Hg Ho Hgo. rewrite Forall_forall in Hlt1.
      apply (Hlt1 (g, o)); [|exact Hgo]. apply in_candidates. auto.
    + (* strictly less than the earlier orientations on the same one *)
      intros o Ho Hgo. rewrite Forall_forall in Hlt2.
      apply (Hlt2 ((fx, fy, fw, fh), o)); [|exact Hgo]. now apply in_map.
    + cbv beta iota zeta delta [best_for].
      rewrite Hfree, (list_remove_first _ _ _ Hfirst).
      cbv beta iota zeta delta [bind].
      destruct (Qltb 0 (fw - w) && Qltb 0 h);
        destruct (Qltb 0 fw && Qltb 0 (fh - h));
        rewrite <- ?app_assoc, ?app_nil_r; reflexivity.
  - left. split; [reflexivity|].
    intros g o Hg Ho. rewrite Forall_forall in Hscan.
    apply (Hscan (g, o)). apply in_candidates. auto.
Qed.

(** C2.  For a piece [p] and the current free list, [pack]'s loop body
    either finds no fitting (free rectangle, orientation) pair and returns
    [None], or it picks the fitting pair of least waste
    [fw*fh - w*h], the first such pair in visiting order (free rectangles
    in list order, orientations in list order); it then removes that free
    rectangle, records the placement at the rectangle's origin, and
    appends the right remainder [(fx+w, fy, fw-w, h)] and the bottom
    remainder [(fx, fy+h, fw, fh-h)], each only when both its dimensions
    are strictly positive. *)
Theorem pack_step_least_waste (free : list FreeRect) (placed : Layout)
  (p : Piece) :
  (pack_step (free, placed) p = Value None /\
   forall g o, In g free -> In o (orientations p) -> ~ fits g o)
  \/
  (exists f1 f2 o1 o2 fx fy fw fh w h right bottom,
      free = f1 ++ (fx, fy, fw, fh) :: f2 /\
      orientations p = o1 ++ (w, h) :: o2 /\
      w <= fw /\ h <= fh /\
      (forall g o, In g free -> In o (orientations p) -> fits g o ->
                   fw * fh - w * h <= waste_of g o) /\
      (forall g o, In g f1 -> In o (orientations p) -> fits g o ->
                   fw * fh - w * h < waste_of g o) /\
      (forall o, In o o1 -> fits (fx, fy, fw, fh) o ->
                 fw * fh - w * h < waste_of (fx, fy, fw, fh) o) /\
      kept_if_positive (fx + w, fy, fw - w, h) right /\
      kept_if_positive (fx, fy + h, fw, fh - h) bottom /\
      pack_step (free, placed) p =
        Value (Some (f1 ++ f2 ++ right ++ bottom,
                     placed ++ [(pid p, fx, fy, w, h)]))).
Proof. apply pack_step_cases. Qed.

(** ** The packing loop *)

Lemma pack_step_no_fit (free : list FreeRect) (placed : Layout) (p : Piece) :
  (forall g o, In g free -> In o (orientations p) -> ~ fits g o) ->
  pack_step (free, placed) p = Value None.
Proof.
  intros Hno.
  destruct (pack_step_cases free placed p) as [[H _]|H]; [exact H|].
  destruct H as (f1 & f2 & o1 & o2 & fx & fy & fw & fh & w & h & ? & ?
                 & Hfree & Hos & Hw & Hh & _).
  exfalso. apply (Hno (fx, fy, fw, fh) (w, h)).
  - rewrite Hfree. apply in_elt.
  - rewrite Hos. apply in_elt.
  - split; assumption.
Qed.

Lemma run_steps_cons (p : Piece) (rest : list Piece) (st : PackState) :
  run_steps (p :: rest) st =
  (r <- pack_step st p ;;
   match r with
   | None => Value None
   | Some st' => run_steps rest st'
   end).
Proof. reflexivity. Qed.

Lemma pack_loop_run_steps (pieces : list Piece) (st : PackState) :
  pack_loop pieces st =
  (r <- run_steps pieces st ;; Value (option_map snd r)).
Proof.
  revert st. induction pieces as [|p pieces IH]; intros st; simpl; auto.
  destruct (pack_step st p) as [[st'|]|]; simpl; auto.
Qed.

Lemma run_steps_app (pre post : list Piece) (st : PackState) :
  run_steps (pre ++ post) st =
  (r <- run_steps pre st ;;
   match r with
   | None => Value None
   | Some st' => run_steps post st'
   end).
Proof.
  revert st. induction pre as [|p pre IH]; intros st; simpl; auto.
  destruct (pack_step st p) as [[st'|]|]; simpl; auto.
Qed.

(** The loop never raises: it either places every piece, one placement
    per piece in order, or stops at the first piece without a fit. *)
Lemma run_steps_cases (pieces : list Piece) (st : PackState) :
  (exists free' added,
      run_steps pieces st = Value (Some (free', snd st ++ added)) /\
      Forall2 placement_of pieces added)
  \/
  (run_steps pieces st = Value None /\
   exists pre p post free placed,
     pieces = pre ++ p :: post /\
     run_steps pre st = Value (Some (free, placed)) /\
     forall g o, In g free -> In o (orientations p) -> ~ fits g o).
Proof.
  revert st. induction pieces as [|p pieces IH]; intros [free placed].
  - left. exists free, []. simpl. rewrite app_nil_r. split; constructor.
  - rewrite run_steps_cons.
    destruct (pack_step_cases free placed p) as [[Hstep Hno]|Hstep].
    + right. rewrite Hstep. simpl. split; [reflexivity|].
      exists [], p, pieces, free, placed. auto.
    + destruct Hstep as (f1 & f2 & o1 & o2 & fx & fy & fw & fh & w & h
                         & right & bottom & Hfree & Hos & _ & _ & _ & _ & _
                         & _ & _ & Hstep).
      rewrite Hstep. simpl.
      destruct (IH (f1 ++ f2 ++ right ++ bottom,
                    placed ++ [(pid p, fx, fy, w, h)]))
        as [(free' & added & Hrun & Hall)|(Hrun & Hstuck)].
      * left. exists free', ((pid p, fx, fy, w, h) :: added).
        simpl in Hrun. rewrite <- app_assoc in Hrun. split; [exact Hrun|].
        constructor; [|exact Hall]. split; [reflexivity|].
        rewrite Hos. apply in_elt.
      * right. split; [exact Hrun|].
        destruct Hstuck as (pre & p' & post & free' & placed' & -> & Hpre & Hno).
        exists (p :: pre), p', post, free', placed'.
        split; [reflexivity|]. split; [|exact Hno].
        rewrite run_steps_cons, Hstep. simpl. exact Hpre.
Qed.

Section PackFacts.

Variable ROLL_WIDTH : Q.

Lemma pack_cases (pieces : list Piece) :
  (exists layout,
      pack ROLL_WIDTH pieces = Value (Some layout) /\
      Forall2 placement_of pieces layout)
  \/
  (pack ROLL_WIDTH pieces = Value None /\
   exists pre p post free placed,
     pieces = pre ++ p :: post /\
     run_steps pre (initial_state ROLL_WIDTH) = Value (Some (free, placed)) /\
     forall g o, In g free -> In o (orientations p) -> ~ fits g o).
Proof.
  unfold pack. rewrite pack_loop_run_steps.
  destruct (run_steps_cases pieces (initial_state ROLL_WIDTH))
    as [(free' & added & Hrun & Hall)|(Hrun & Hstuck)]; rewrite Hrun.
  - left. exists added. split; [reflexivity|exact Hall].
  - right. split; [reflexivity|exact Hstuck].
Qed.

(** C5.  [pack] either returns a layout holding exactly one placement per
    input piece (the i-th placement is the i-th piece in one of its
    orientations), or it returns [None]: that happens exactly when,
    at its turn, some piece has no fitting (free rectangle, orientation)
    pair, and nothing of the pieces placed before it is returned.  It
    never raises. *)
Theorem pack_all_or_nothing (pieces : list Piece) :
  ((exists layout,
       pack ROLL_WIDTH pieces = Value (Some layout) /\
       Forall2 placement_of pieces layout)
   \/
   (pack ROLL_WIDTH pieces = Value None /\
    exists pre p post free placed,
      pieces = pre ++ p :: post /\
      run_steps pre (initial_state ROLL_WIDTH)
        = Value (Some (free, placed)) /\
      forall g o, In g free -> In o (orientations p) -> ~ fits g o))
  /\
  (forall pre p post free placed,
      pieces = pre ++ p :: post ->
      run_steps pre (initial_state ROLL_WIDTH)
        = Value (Some (free, placed)) ->
      (forall g o, In g free -> In o (orientations p) -> ~ fits g o) ->
      pack ROLL_WIDTH pieces = Value None).
Proof.
  split; [apply pack_cases|].
  intros pre p post free placed -> Hpre Hno.
  unfold pack. rewrite pack_loop_run_steps, run_steps_app, Hpre.
  cbv beta iota delta [bind].
  rewrite run_steps_cons, (pack_step_no_fit _ _ _ Hno). reflexivity.
Qed.

End PackFacts.

(** ** Invariants of the packing loop *)

(** An invariant of the loop body, for pieces satisfying [P], holds of
    every state the loop reaches. *)
Lemma run_steps_preserves (I : PackState -> Prop) (P : Piece -> Prop) :
  (forall st p st',
      P p -> I st -> pack_step st p = Value (Some st') -> I st') ->
  forall pieces st st',
    Forall P pieces -> I st ->
    run_steps pieces st = Value (Some st') -> I st'.
Proof.
  intros Hstep pieces. induction pieces as [|p pieces IH]; intros st st' HP HI.
  - simpl. intros [= <-]. exact HI.
  - rewrite run_steps_cons. inversion HP as [|? ? Hp HP']; subst.
    destruct (pack_step st p) as [[st1|]|] eqn:E; simpl; try discriminate.
    apply IH; [exact HP'|]. apply (Hstep st p st1 Hp HI E).
Qed.

Lemma pack_final_state (roll : Q) (pieces : list Piece) (layout : Layout) :
  pack roll pieces = Value (Some layout) ->
  exists free,
    run_steps pieces (initial_state roll) = Value (Some (free, layout)).
Proof.
  unfold pack. rewrite pack_loop_run_steps.
  destruct (run_steps pieces (initial_state roll)) as [[[free placed]|]|];
    simpl; try discriminate.
  intros [= <-]. exists free. reflexivity.
Qed.

Lemma kept_if_positive_in (r a : FreeRect) (part : list FreeRect) :
  kept_if_positive r part -> In a part ->
  a = r /\ let '(_, _, rw, rh) := r in 0 < rw /\ 0 < rh.
Proof.
  destruct r as [[[x y] w] h]. intros [(Hw & Hh & ->)|(_ & ->)] Hin.
  - destruct Hin as [<-|[]]. auto.
  - destruct Hin.
Qed.

(** *** Python's [max] *)

Lemma fold_max_spec (l : list Q) (x : Q) :
  let m := fold_left (fun m y => if Qltb m y then y else m) l x in
  In m (x :: l) /\ Forall (fun y => y <= m) (x :: l).
Proof.
  revert x. induction l as [|y l IH]; intros x; simpl.
  - split; [auto|]. constructor; [apply Qle_refl|constructor].
  - destruct (Qltb x y) eqn:E.
    + apply Qltb_iff in E. destruct (IH y) as [Hin Hall]. simpl in Hin, Hall.
      split; [tauto|]. inversion Hall as [|? ? Hy Hl]; subst.
      constructor; [lra|]. constructor; assumption.
    + apply Qltb_false_iff in E. destruct (IH x) as [Hin Hall].
      simpl in Hin, Hall. split; [tauto|].
      inversion Hall as [|? ? Hx Hl]; subst.
      constructor; [assumption|]. constructor; [lra|assumption].
Qed.

Lemma py_max_spec (l : list Q) (m : Q) :
  py_max l = Value m -> In m l /\ Forall (fun y => y <= m) l.
Proof.
  destruct l as [|x l]; simpl; [discriminate|].
  intros [= <-]. apply fold_max_spec.
Qed.

Lemma py_max_defined (l : list Q) : l <> [] -> exists m, py_max l = Value m.
Proof.
  destruct l as [|x l]; [congruence|]. intros _. simpl. eauto.
Qed.

Lemma length_spec (layout : Layout) (l : Q) :
  length layout = Value l ->
  (exists id x y w h, In (id, x, y, w, h) layout /\ l = y + h) /\
  Forall (fun pl : Placed => let '(_, _, y, _, h) := pl in y + h <= l) layout.
Proof.
  unfold length. intros H. apply py_max_spec in H. destruct H as [Hin Hall].
  split.
  - apply in_map_iff in Hin. destruct Hin as ([[[[id x] y] w] h] & <- & Hin).
    exists id, x, y, w, h. auto.
  - rewrite Forall_map in Hall. eapply Forall_impl; [|exact Hall].
    intros [[[[id x] y] w] h]. auto.
Qed.

Lemma length_defined (layout : Layout) :
  layout <> [] -> exists l, length layout = Value l.
Proof.
  intros H. apply py_max_defined. destruct layout; [congruence|discriminate].
Qed.

(** *** Guillotine cuts keep rectangles apart *)

Lemma separated_sym (a b : FreeRect) : separated a b -> separated b a.
Proof.
  destruct a as [[[ax ay] aw] ah], b as [[[bx by_] bw] bh].
  unfold separated. tauto.
Qed.

Lemma separated_contained_r (a b c : FreeRect) :
  separated a b -> contained c b -> separated a c.
Proof.
  destruct a as [[[ax ay] aw] ah], b as [[[bx by_] bw] bh],
           c as [[[cx cy] cw] ch].
  unfold separated, contained. intros [H|[H|[H|H]]] (H1 & H2 & H3 & H4).
  - left. lra.
  - right. left. lra.
  - right. right. left. lra.
  - right. right. right. lra.
Qed.

Lemma separated_contained_l (a b c : FreeRect) :
  separated b a -> contained c b -> separated c a.
Proof.
  intros H Hc. apply separated_sym.
  apply (separated_contained_r a b c); [apply separated_sym, H|exact Hc].
Qed.

Lemma within_roll_contained (roll : Q) (a b : FreeRect) :
  within_roll roll b -> contained a b -> within_roll roll a.
Proof.
  destruct a as [[[ax ay] aw] ah], b as [[[bx by_] bw] bh].
  unfold within_roll, contained. intros (H1 & H2 & H3 & H4) (H5 & H6 & H7 & H8).
  repeat split; lra.
Qed.

(** The three parts a placement cuts a free rectangle into. *)
Lemma guillotine_parts (fx fy fw fh w h : Q) :
  0 <= w -> 0 <= h -> w <= fw -> h <= fh ->
  let F := (fx, fy, fw, fh) in
  let P := (fx, fy, w, h) in
  let R := (fx + w, fy, fw - w, h) in
  let B := (fx, fy + h, fw, fh - h) in
  contained P F /\ contained R F /\ contained B F /\
  separated P R /\ separated P B /\ separated R B.
Proof.
  intros Hw Hh Hfw Hfh. unfold contained, separated.
  repeat split; lra.
Qed.

Section Pairwise.

Variable A : Type.
Variable R : A -> A -> Prop.

Lemma pairwise_app (l1 l2 : list A) :
  ForallOrdPairs R (l1 ++ l2) <->
  ForallOrdPairs R l1 /\ ForallOrdPairs R l2 /\
  (forall a b, In a l1 -> In b l2 -> R a b).
Proof.
  induction l1 as [|x l1 IH]; simpl.
  - split; [intros H|tauto]. repeat split; auto; [constructor|tauto].
  - split.
    + intros H. inversion H as [|? ? Hx Hl]; subst.
      apply IH in Hl. destruct Hl as (H1 & H2 & H12).
      apply Forall_app in Hx. destruct Hx as [Hx1 Hx2].
      repeat split; auto; [constructor; auto|].
      intros a b [<-|Ha] Hb; [|auto].
      rewrite Forall_forall in Hx2. auto.
    + intros (H1 & H2 & H12). inversion H1 as [|? ? Hx Hl]; subst.
      constructor.
      * apply Forall_app. split; [exact Hx|].
        apply Forall_forall. intros b Hb. apply H12; auto.
      * apply IH. repeat split; auto.
Qed.

Hypothesis R_sym : forall a b, R a b -> R b a.

Lemma pairwise_elt (l1 l2 : list A) (x : A) :
  ForallOrdPairs R (l1 ++ x :: l2) ->
  ForallOrdPairs R (l1 ++ l2) /\ forall a, In a (l1 ++ l2) -> R a x.
Proof.
  intros H. apply pairwise_app in H. destruct H as (H1 & H2 & H12).
  inversion H2 as [|? ? Hx Hl]; subst. split.
  - apply pairwise_app. repeat split; auto.
    intros a b Ha Hb. apply H12; simpl; auto.
  - intros a Ha. apply in_app_or in Ha. destruct Ha as [Ha|Ha].
    + apply H12; simpl; auto.
    + apply R_sym. rewrite Forall_forall in Hx. auto.
Qed.

Lemma pairwise_nth (l : list A) :
  ForallOrdPairs R l ->
  forall i j a b,
    i <> j -> nth_error l i = Some a -> nth_error l j = Some b -> R a b.
Proof.
  induction 1 as [|x l Hx Hl IH]; intros i j a b Hij Ha Hb.
  - destruct i; discriminate.
  - rewrite Forall_forall in Hx.
    destruct i as [|i], j as [|j]; simpl in Ha, Hb.
    + congruence.
    + injection Ha as <-. apply Hx. eapply nth_error_In, Hb.
    + injection Hb as <-. apply R_sym, Hx. eapply nth_error_In, Ha.
    + apply (IH i j); auto.
Qed.

End Pairwise.

Lemma tiling_state_initial (roll : Q) :
  tiling_state roll (initial_state roll).
Proof.
  unfold tiling_state, initial_state. simpl.
  repeat split; try constructor; try constructor; try lra.
  intros a b [].
Qed.

Lemma tiling_state_step (roll : Q) (st : PackState) (p : Piece)
  (st' : PackState) :
  nonneg_piece p -> tiling_state roll st ->
  pack_step st p = Value (Some st') -> tiling_state roll st'.
Proof.
  destruct st as [free placed].
  intros Hp (Hwf & Hwp & Hsf & Hsp & Hcross) Hstep.
  destruct (pack_step_cases free placed p) as [[H _]|H]; [congruence|].
  destruct H as (f1 & f2 & o1 & o2 & fx & fy & fw & fh & w & h & right
                 & bottom & -> & Hos & Hw & Hh & _ & _ & _ & Hr & Hb & E).
  rewrite E in Hstep. injection Hstep as <-. clear E.
  simpl in Hwf, Hwp, Hsf, Hsp, Hcross.
  assert (0 <= w /\ 0 <= h) as [Hw0 Hh0].
  { unfold nonneg_piece in Hp. rewrite Hos in Hp.
    apply Forall_elt in Hp. exact Hp. }
  destruct (guillotine_parts fx fy fw fh w h Hw0 Hh0 Hw Hh)
    as (HPF & HRF & HBF & HPR & HPB & HRB).
  set (F := (fx, fy, fw, fh)) in *.
  set (P := (fx, fy, w, h)) in *.
  (* what is known of the rectangles that stay *)
  destruct (pairwise_elt _ _ separated_sym _ _ _ Hsf) as [Hothers HothersF].
  assert (within_roll roll F) as HwF by (apply Forall_elt in Hwf; exact Hwf).
  assert (Forall (within_roll roll) (f1 ++ f2)) as Hwo.
  { apply Forall_app in Hwf. destruct Hwf as [H1 H2].
    inversion H2; subst. apply Forall_app. auto. }
  assert (forall a, In a (map rect_of placed) -> separated a F) as HplacedF.
  { intros a Ha. apply Hcross; [exact Ha|]. apply in_elt. }
  assert (forall a b, In a (map rect_of placed) -> In b (f1 ++ f2) ->
                      separated a b) as Hpo.
  { intros a b Ha Hin. apply Hcross; [exact Ha|].
    apply in_app_or in Hin. apply in_or_app. simpl. tauto. }
  (* what is known of the new free rectangles *)
  assert (forall b, In b (right ++ bottom) ->
                    contained b F /\ separated P b) as Hnew.
  { intros b Hin. apply in_app_or in Hin. destruct Hin as [Hin|Hin].
    - destruct (kept_if_positive_in _ _ _ Hr Hin) as [-> _]. auto.
    - destruct (kept_if_positive_in _ _ _ Hb Hin) as [-> _]. auto. }
  assert (ForallOrdPairs separated (right ++ bottom)) as Hsnew.
  { apply (pairwise_app _ separated). repeat split.
    - destruct Hr as [(_ & _ & ->)|(_ & ->)]; repeat constructor.
    - destruct Hb as [(_ & _ & ->)|(_ & ->)]; repeat constructor.
    - intros a b Ha Hb'.
      destruct (kept_if_positive_in _ _ _ Hr Ha) as [-> _].
      destruct (kept_if_positive_in _ _ _ Hb Hb') as [-> _]. exact HRB. }
  unfold tiling_state. simpl.
  rewrite map_app. simpl. fold P.
  replace (f1 ++ f2 ++ right ++ bottom) with ((f1 ++ f2) ++ right ++ bottom)
    by (rewrite <- app_assoc; reflexivity).
  split; [|split; [|split; [|split]]].
  - apply Forall_app. split; [exact Hwo|].
    apply Forall_forall. intros b Hb'.
    apply (within_roll_contained roll b F HwF). apply Hnew, Hb'.
  - apply Forall_app. split; [exact Hwp|]. constructor; [|constructor].
    apply (within_roll_contained roll P F HwF HPF).
  - apply (pairwise_app _ separated). repeat split; auto.
    intros a b Ha Hb'.
    apply (separated_contained_r a F b); [apply HothersF, Ha|apply Hnew, Hb'].
  - apply (pairwise_app _ separated). repeat split; auto.
    + repeat constructor.
    + intros a b Ha [<-|[]].
      apply (separated_contained_r a F P); [apply HplacedF, Ha|exact HPF].
  - intros a b Ha Hb'. apply in_app_or in Ha. apply in_app_or in Hb'.
    destruct Ha as [Ha|[<-|[]]], Hb' as [Hb'|Hb'].
    + apply Hpo; assumption.
    + apply (separated_contained_r a F b); [apply HplacedF, Ha|apply Hnew, Hb'].
    + apply (separated_contained_l b F P); [|exact HPF].
      apply separated_sym, HothersF, Hb'.
    + apply Hnew, Hb'.
Qed.

Lemma pack_tiling_state (roll : Q) (pieces : list Piece) (layout : Layout) :
  Forall nonneg_piece pieces ->
  pack roll pieces = Value (Some layout) ->
  exists free, tiling_state roll (free, layout).
Proof.
  intros Hp Hpack. destruct (pack_final_state _ _ _ Hpack) as [free Hrun].
  exists free.
  apply (run_steps_preserves (tiling_state roll) nonneg_piece)
    with (pieces := pieces) (st := initial_state roll); auto.
  - intros st p st'. apply tiling_state_step.
  - apply tiling_state_initial.
Qed.

(** With exact arithmetic the placements of pieces of non-negative
    dimensions do not overlap and stay within the roll. *)
Lemma pack_layout_facts
  (roll : Q) (pieces : list Piece) (layout : Layout) :
  Forall nonneg_piece pieces ->
  pack roll pieces = Value (Some layout) ->
  (forall i j a b,
      i <> j ->
      nth_error layout i = Some a -> nth_error layout j = Some b ->
      separated (rect_of a) (rect_of b)) /\
  Forall (fun pl : Placed =>
            let '(_, x, _, w, _) := pl in 0 <= x /\ x + w <= roll) layout.
Proof.
  intros Hp Hpack.
  destruct (pack_tiling_state roll pieces layout Hp Hpack)
    as (free & _ & Hwithin & _ & Hsep & _).
  simpl in Hwithin, Hsep. split.
  - intros i j a b Hij Ha Hb.
    apply (pairwise_nth _ separated separated_sym _ Hsep i j); auto.
    + rewrite nth_error_map, Ha. reflexivity.
    + rewrite nth_error_map, Hb. reflexivity.
  - rewrite Forall_map in Hwithin. eapply Forall_impl; [|exact Hwithin].
    intros [[[[id x] y] w] h]. simpl. tauto.
Qed.




(** ** The pieces [expand] builds have positive dimensions *)

Lemma strip_width_positive (o w : Q) (n : Z) :
  0 <= o -> 0 < w -> (1 <= n)%Z -> 0 < strip_width o w n.
Proof.
  intros Ho Hw Hn. unfold strip_width.
  assert (0 < inject_Z n) as Hn0.
  { change 0 with (inject_Z 0). rewrite <- Zlt_Qlt. lia. }
  assert (0 <= inject_Z (n - 1)) as Hk.
  { change 0 with (inject_Z 0). rewrite <- Zle_Qle. lia. }
  apply Qlt_shift_div_l; [exact Hn0|].
  pose proof (Qmult_le_0_compat _ _ Hk Ho). lra.
Qed.

Lemma expand_positive (o roll : Q) (jobs : list Job) (pieces : list Piece) :
  0 <= o ->
  Forall (fun j : Job => let '(_, w, h, _) := j in 0 < w /\ 0 < h) jobs ->
  expand o roll jobs = Some pieces ->
  Forall positive_piece pieces.
Proof.
  intros Ho Hjobs H. apply expand_loop_some in H.
  destruct H as (blocks & -> & Hblocks). simpl.
  induction Hblocks as [|[[[id w] h] q] block jobs blocks Hb _ IH]; simpl.
  - constructor.
  - inversion Hjobs as [|? ? Hwh Hjobs']; subst. destruct Hwh as [Hw Hh].
    apply Forall_app. split; [|apply IH, Hjobs'].
    unfold job_block in Hb. destruct Hb as (tile_w & n & Htile & -> & _).
    apply tile_width_only_some in Htile.
    destruct Htile as (Hn & _ & _ & ->).
    apply Forall_forall. intros p Hp. apply repeat_spec in Hp. subst p.
    assert (0 < strip_width o w n) by (apply strip_width_positive; tauto).
    unfold positive_piece. simpl. repeat constructor; simpl; assumption.
Qed.

Lemma positive_nonneg_piece (p : Piece) : positive_piece p -> nonneg_piece p.
Proof.
  unfold positive_piece, nonneg_piece. apply Forall_impl.
  intros [w h] [Hw Hh]. simpl in *. split; apply Qlt_le_weak; assumption.
Qed.

(** With exact arithmetic, the jobs the input filter lets through
    ([w > 0], [h > 0]) with a non-negative overlap give pieces that
    [pack], in any order, lays out without overlap and within the roll. *)
Corollary expanded_jobs_layout (o roll : Q) (jobs : list Job)
  (pieces order : list Piece) (layout : Layout) :
  0 <= o ->
  Forall (fun j : Job => let '(_, w, h, _) := j in 0 < w /\ 0 < h) jobs ->
  expand o roll jobs = Some pieces ->
  Permutation pieces order ->
  pack roll order = Value (Some layout) ->
  (forall i j a b,
      i <> j ->
      nth_error layout i = Some a -> nth_error layout j = Some b ->
      separated (rect_of a) (rect_of b)) /\
  Forall (fun pl : Placed =>
            let '(_, x, _, w, _) := pl in 0 <= x /\ x + w <= roll) layout.
Proof.
  intros Ho Hjobs Hexp Hperm Hpack.
  apply (pack_layout_facts roll order); [|exact Hpack].
  eapply Permutation_Forall; [exact Hperm|].
  eapply Forall_impl; [apply positive_nonneg_piece|].
  apply (expand_positive o roll jobs); assumption.
Qed.

(** ** The multi-pass search *)

Section SearchFacts.

Variable ROLL_WIDTH : Q.
Variable Rng : Type.
Variable shuffle : Rng -> list Piece -> list Piece * Rng.

(** The contract of [random.shuffle]: it rearranges the list. *)
Hypothesis shuffle_perm :
  forall g l, Permutation l (fst (shuffle g l)).

Lemma random_shuffle_perm (s : Store Rng) :
  Permutation (pieces_obj s) (pieces_obj (random_shuffle shuffle s)).
Proof.
  unfold random_shuffle. specialize (shuffle_perm (rng s) (pieces_obj s)).
  destruct (shuffle (rng s) (pieces_obj s)) as [l g]. exact shuffle_perm.
Qed.

Lemma final_store_perm (n : nat) (s : Store Rng) :
  Permutation (pieces_obj s) (pieces_obj (final_store shuffle n s)).
Proof.
  revert s. induction n as [|n IH]; intros s; simpl.
  - apply Permutation_refl.
  - eapply Permutation_trans; [apply random_shuffle_perm|apply IH].
Qed.

Lemma attempts_perm (n : nat) (s : Store Rng) :
  Forall (Permutation (pieces_obj s)) (attempts shuffle n s).
Proof.
  revert s. induction n as [|n IH]; intros s; simpl; constructor.
  - apply random_shuffle_perm.
  - eapply Forall_impl; [|apply IH]. intros l Hl.
    eapply Permutation_trans; [apply random_shuffle_perm|exact Hl].
Qed.

Lemma attempts_length (n : nat) (s : Store Rng) :
  List.length (attempts shuffle n s) = n.
Proof.
  revert s. induction n as [|n IH]; intros s; simpl; auto.
Qed.

Lemma pack_never_raises (ps : list Piece) :
  pack ROLL_WIDTH ps <> ValueError.
Proof.
  destruct (pack_cases ROLL_WIDTH ps) as [(layout & H & _)|(H & _)];
    rewrite H; discriminate.
Qed.

Lemma attempt_result_some (ps : list Piece) (layout : Layout) (l : Q) :
  attempt_result ROLL_WIDTH ps = Some (layout, l) <->
  pack ROLL_WIDTH ps = Value (Some layout) /\ length layout = Value l.
Proof.
  unfold attempt_result. split.
  - destruct (pack ROLL_WIDTH ps) as [[layout'|]|]; try discriminate.
    destruct (length layout') as [l'|] eqn:E; try discriminate.
    intros [= <- <-]. auto.
  - intros [-> ->]. reflexivity.
Qed.

(** One pass of the loop of [optimize]. *)
Lemma optimize_loop_step (n : nat) (best_len : option Q)
  (best_layout : option Layout) (s : Store Rng) :
  optimize_loop ROLL_WIDTH shuffle (S n) best_len best_layout s =
  let s1 := random_shuffle shuffle s in
  match attempt_result ROLL_WIDTH (pieces_obj s1) with
  | Some (layout, l) =>
      if improves best_len l
      then optimize_loop ROLL_WIDTH shuffle n (Some l) (Some layout) s1
      else optimize_loop ROLL_WIDTH shuffle n best_len best_layout s1
  | None => optimize_loop ROLL_WIDTH shuffle n best_len best_layout s1
  end.
Proof.
  cbn [optimize_loop]. cbv zeta. unfold call_pack, attempt_result.
  pose proof (pack_never_raises (pieces_obj (random_shuffle shuffle s)))
    as Hraise.
  destruct (pack ROLL_WIDTH (pieces_obj (random_shuffle shuffle s)))
    as [[[|pl rest]|]|]; try reflexivity.
  congruence.
Qed.

(** Whatever the pieces, the search returns, and its store is the one
    the shuffles leave. *)
Lemma optimize_loop_returns (n : nat) (best_len : option Q)
  (best_layout : option Layout) (s : Store Rng) :
  exists best_layout' best_len',
    optimize_loop ROLL_WIDTH shuffle n best_len best_layout s =
    Value (best_layout', best_len', final_store shuffle n s).
Proof.
  revert best_len best_layout s.
  induction n as [|n IH]; intros best_len best_layout s.
  - simpl. eauto.
  - rewrite optimize_loop_step. cbv zeta. cbn [final_store].
    destruct (attempt_result _ _) as [[layout l]|]; [|apply IH].
    destruct (improves best_len l); apply IH.
Qed.

Lemma placement_of_in (pieces : list Piece) (layout : Layout) (pl : Placed) :
  Forall2 placement_of pieces layout -> In pl layout ->
  exists p, In p pieces /\ placement_of p pl.
Proof.
  induction 1 as [|p pl' pieces layout Hp _ IH]; intros Hin.
  - destruct Hin.
  - destruct Hin as [<-|Hin].
    + exists p. split; [now left|exact Hp].
    + destruct (IH Hin) as (p' & Hp' & Hpl). exists p'. split; [now right|auto].
Qed.

(** With pieces of positive dimensions a layout has a positive length. *)
Lemma length_positive (ps : list Piece) (layout : Layout) (l : Q) :
  Forall positive_piece ps ->
  pack ROLL_WIDTH ps = Value (Some layout) ->
  length layout = Value l -> 0 < l.
Proof.
  intros Hpos Hpack Hlen.
  apply length_spec in Hlen.
  destruct Hlen as [(id & x & y & w & h & Hin & ->) _].
  assert (0 <= y) as Hy.
  { destruct (pack_tiling_state ROLL_WIDTH ps layout) as (free & _ & Hw & _);
      [eapply Forall_impl; [apply positive_nonneg_piece|exact Hpos]
      |exact Hpack|].
    simpl in Hw. rewrite Forall_map, Forall_forall in Hw.
    specialize (Hw _ Hin). simpl in Hw. tauto. }
  assert (0 < h) as Hh.
  { destruct (pack_cases ROLL_WIDTH ps) as [(layout' & H & Hall)|(H & _)];
      [|congruence].
    rewrite Hpack in H. injection H as <-.
    destruct (placement_of_in _ _ _ Hall Hin) as (p & Hp & _ & Ho).
    rewrite Forall_forall in Hpos. specialize (Hpos p Hp).
    unfold positive_piece in Hpos. rewrite Forall_forall in Hpos.
    apply (Hpos (w, h) Ho). }
  lra.
Qed.

Lemma best_so_far_skip (seen : list (list Piece)) (ps : list Piece)
  (best_layout : option Layout) (best_len : option Q) :
  attempt_result ROLL_WIDTH ps = None ->
  best_so_far ROLL_WIDTH seen best_layout best_len ->
  best_so_far ROLL_WIDTH (seen ++ [ps]) best_layout best_len.
Proof.
  intros Hnone. unfold best_so_far.
  destruct best_layout as [layout|], best_len as [m|]; auto.
  - intros (Hm & o1 & ps0 & o2 & -> & Hps0 & H1 & H2).
    split; [exact Hm|]. exists o1, ps0, (o2 ++ [ps]).
    rewrite <- app_assoc. repeat split; auto.
    apply Forall_app. split; [exact H2|]. constructor; [|constructor].
    intros layout' l' H. congruence.
  - intros H. apply Forall_app. split; [exact H|]. repeat constructor.
    exact Hnone.
Qed.

Lemma best_so_far_pass (seen : list (list Piece)) (ps : list Piece)
  (layout : Layout) (l : Q)
  (best_layout : option Layout) (best_len : option Q) :
  attempt_result ROLL_WIDTH ps = Some (layout, l) -> 0 < l ->
  best_so_far ROLL_WIDTH seen best_layout best_len ->
  if improves best_len l
  then best_so_far ROLL_WIDTH (seen ++ [ps]) (Some layout) (Some l)
  else best_so_far ROLL_WIDTH (seen ++ [ps]) best_layout best_len.
Proof.
  intros Hps Hl. unfold best_so_far, improves.
  destruct best_layout as [layout0|], best_len as [m|]; try tauto.
  - intros (Hm & o1 & ps0 & o2 & -> & Hps0 & H1 & H2).
    assert (Qeq_bool m 0 = false) as ->.
    { destruct (Qeq_bool m 0) eqn:E; [|reflexivity].
      apply Qeq_bool_iff in E. lra. }
    simpl. destruct (Qltb l m) eqn:E.
    + (* a strictly shorter layout replaces the best *)
      apply Qltb_iff in E. split; [exact Hl|].
      exists (o1 ++ ps0 :: o2), ps, []. repeat split; auto.
      apply Forall_app. split; [|constructor].
      * eapply Forall_impl; [|exact H1]. intros ps' H layout' l' Hr.
        specialize (H _ _ Hr). lra.
      * intros layout' l' Hr. rewrite Hps0 in Hr. injection Hr as _ <-.
        exact E.
      * eapply Forall_impl; [|exact H2]. intros ps' H layout' l' Hr.
        specialize (H _ _ Hr). lra.
    + (* otherwise the earlier one stays *)
      apply Qltb_false_iff in E. split; [exact Hm|].
      exists o1, ps0, (o2 ++ [ps]). rewrite <- app_assoc.
      repeat split; auto.
      apply Forall_app. split; [exact H2|]. constructor; [|constructor].
      intros layout' l' Hr. rewrite Hps in Hr. injection Hr as _ <-.
      exact E.
  - (* the first layout *)
    intros Hnone. split; [exact Hl|].
    exists seen, ps, []. repeat split; auto.
    eapply Forall_impl; [|exact Hnone]. simpl. intros ps' H layout' l' Hr.
    congruence.
Qed.

Lemma optimize_loop_best (n : nat) (s : Store Rng)
  (best_len : option Q) (best_layout : option Layout)
  (seen : list (list Piece)) :
  Forall positive_piece (pieces_obj s) ->
  best_so_far ROLL_WIDTH seen best_layout best_len ->
  exists best_layout' best_len',
    optimize_loop ROLL_WIDTH shuffle n best_len best_layout s =
    Value (best_layout', best_len', final_store shuffle n s) /\
    best_so_far ROLL_WIDTH (seen ++ attempts shuffle n s)
      best_layout' best_len'.
Proof.
  revert s best_len best_layout seen.
  induction n as [|n IH]; intros s best_len best_layout seen Hpos Hbest.
  - simpl. rewrite app_nil_r. eauto.
  - rewrite optimize_loop_step. cbv zeta. cbn [final_store attempts].
    set (s1 := random_shuffle shuffle s).
    assert (Forall positive_piece (pieces_obj s1)) as Hpos1.
    { eapply Permutation_Forall; [apply random_shuffle_perm|exact Hpos]. }
    replace (seen ++ pieces_obj s1 :: attempts shuffle n s1)
      with ((seen ++ [pieces_obj s1]) ++ attempts shuffle n s1)
      by (rewrite <- app_assoc; reflexivity).
    destruct (attempt_result ROLL_WIDTH (pieces_obj s1))
      as [[layout l]|] eqn:E.
    + assert (0 < l) as Hl.
      { apply attempt_result_some in E. destruct E as [Hpack Hlen].
        apply (length_positive _ _ _ Hpos1 Hpack Hlen). }
      pose proof (best_so_far_pass seen _ _ _ _ _ E Hl Hbest) as Hnext.
      destruct (improves best_len l); apply IH; assumption.
    + apply IH; [exact Hpos1|]. apply best_so_far_skip; assumption.
Qed.

Lemma optimize_store (passes : nat) (s : Store Rng)
  (r : option Layout * option Q) (s' : Store Rng) :
  optimize ROLL_WIDTH passes shuffle s = Value (r, s') ->
  s' = final_store shuffle passes s.
Proof.
  unfold optimize.
  destruct (optimize_loop_returns passes None None s) as (bl & bn & ->).
  intros [= _ <-]. reflexivity.
Qed.

(** C3, as the code has it.  For pieces of positive dimensions,
    [optimize] runs [passes]
    passes, each packing a rearrangement of the pieces.  When every pass
    fails to pack it returns [(None, None)].  Otherwise the returned
    length is the least [length] over the passes that produced a layout,
    and the returned layout is that of the first pass reaching it: the
    passes before it are strictly longer, the passes after it are not
    shorter. *)
Theorem optimize_returns_first_shortest (passes : nat) (s : Store Rng) :
  Forall positive_piece (pieces_obj s) ->
  exists best_layout best_len s',
    optimize ROLL_WIDTH passes shuffle s
      = Value (best_layout, best_len, s') /\
    List.length (attempts shuffle passes s) = passes /\
    Forall (Permutation (pieces_obj s)) (attempts shuffle passes s) /\
    (Forall (fun ps => pack ROLL_WIDTH ps = Value None)
            (attempts shuffle passes s) ->
     best_layout = None /\ best_len = None) /\
    ((best_layout = None /\ best_len = None /\
      Forall (fun ps => forall layout l,
                  pack ROLL_WIDTH ps = Value (Some layout) ->
                  length layout <> Value l)
             (attempts shuffle passes s))
     \/
     (exists layout m o1 ps o2,
         best_layout = Some layout /\ best_len = Some m /\
         attempts shuffle passes s = o1 ++ ps :: o2 /\
         pack ROLL_WIDTH ps = Value (Some layout) /\
         length layout = Value m /\
         Forall (fun ps' => forall layout' l',
                     pack ROLL_WIDTH ps' = Value (Some layout') ->
                     length layout' = Value l' -> m < l') o1 /\
         Forall (fun ps' => forall layout' l',
                     pack ROLL_WIDTH ps' = Value (Some layout') ->
                     length layout' = Value l' -> m <= l') o2)).
Proof.
  intros Hpos. unfold optimize.
  destruct (optimize_loop_best passes s None None [] Hpos)
    as (best_layout & best_len & Hrun & Hbest); [constructor|].
  simpl in Hbest.
  exists best_layout, best_len, (final_store shuffle passes s).
  split; [exact Hrun|]. split; [apply attempts_length|].
  split; [apply attempts_perm|].
  unfold best_so_far in Hbest.
  destruct best_layout as [layout|], best_len as [m|]; try contradiction.
  - destruct Hbest as (_ & o1 & ps & o2 & Hsplit & Hps & H1 & H2).
    apply attempt_result_some in Hps. destruct Hps as [Hpack Hlen].
    split.
    + intros Hfail. rewrite Hsplit in Hfail. apply Forall_elt in Hfail.
      congruence.
    + right. exists layout, m, o1, ps, o2. repeat split; auto.
      * eapply Forall_impl; [|exact H1]. intros ps' H layout' l' Hp Hl.
        apply (H layout' l'). apply attempt_result_some. auto.
      * eapply Forall_impl; [|exact H2]. intros ps' H layout' l' Hp Hl.
        apply (H layout' l'). apply attempt_result_some. auto.
  - split; [auto|]. left. repeat split.
    eapply Forall_impl; [|exact Hbest]. simpl.
    intros ps Hnone layout l Hp Hl.
    assert (attempt_result ROLL_WIDTH ps = Some (layout, l)) as Hsome
      by (apply attempt_result_some; auto).
    congruence.
Qed.

(** C7, as the code has it.  The empty job list expands to the empty
    piece list, which [pack] lays out as the empty layout; that layout is
    falsy and [length] is undefined on it, so [optimize] on the empty
    piece list returns [(None, None)], as when every pass fails. *)
Theorem optimize_empty_returns_none (o : Q) (passes : nat) (s : Store Rng) :
  pieces_obj s = [] ->
  expand o ROLL_WIDTH [] = Some [] /\
  pack ROLL_WIDTH [] = Value (Some []) /\
  length [] = ValueError /\
  exists s',
    optimize ROLL_WIDTH passes shuffle s = Value (None, None, s') /\
    pieces_obj s' = [].
Proof.
  intros Hempty. repeat split.
  assert (Forall positive_piece (pieces_obj s)) as Hpos
    by (rewrite Hempty; constructor).
  destruct (optimize_loop_best passes s None None [] Hpos)
    as (best_layout & best_len & Hrun & Hbest); [constructor|].
  simpl in Hbest.
  assert (forall ps, In ps (attempts shuffle passes s) ->
                     attempt_result ROLL_WIDTH ps = None) as Hall.
  { intros ps Hps. pose proof (attempts_perm passes s) as Hperm.
    rewrite Forall_forall in Hperm. specialize (Hperm ps Hps).
    rewrite Hempty in Hperm. apply Permutation_nil in Hperm. subst ps.
    reflexivity. }
  exists (final_store shuffle passes s). split.
  - unfold optimize. rewrite Hrun. unfold best_so_far in Hbest.
    destruct best_layout as [layout|], best_len as [m|];
      try contradiction; [|reflexivity].
    destruct Hbest as (_ & o1 & ps & o2 & Hsplit & Hps & _).
    rewrite (Hall ps) in Hps; [discriminate|].
    rewrite Hsplit. apply in_elt.
  - pose proof (final_store_perm passes s) as Hperm.
    rewrite Hempty in Hperm. apply Permutation_nil in Hperm. exact Hperm.
Qed.

End SearchFacts.

(** C10.  [optimize] changes the list its caller passed in: when it
    returns, that list has been shuffled once per pass and so holds a
    rearrangement of the elements it held; the order does change in general
    (one pass with a shuffle that reverses the list, on two distinct
    pieces).  A call of [pack] leaves the list as it found it. *)
Theorem optimize_shuffles_callers_list :
  (forall (roll : Q) (passes : nat) (Rng : Type)
          (shuffle : Rng -> list Piece -> list Piece * Rng),
      (forall g l, Permutation l (fst (shuffle g l))) ->
      forall (s : Store Rng) (r : option Layout * option Q) (s' : Store Rng),
        optimize roll passes shuffle s = Value (r, s') ->
        s' = final_store shuffle passes s /\
        Permutation (pieces_obj s) (pieces_obj s')) /\
  (exists (pieces : list Piece) (r : option Layout * option Q)
          (s' : Store unit),
      optimize 137 1 reversing_shuffle (mkStore pieces tt) = Value (r, s') /\
      pieces_obj s' <> pieces) /\
  (forall (roll : Q) (Rng : Type) (s : Store Rng)
          (layout : option Layout) (s' : Store Rng),
      call_pack roll s = Value (layout, s') ->
      s' = s /\ pack roll (pieces_obj s) = Value layout).
Proof.
  split; [|split].
  - intros roll passes Rng shuffle Hperm s r s' Hrun.
    apply optimize_store in Hrun. subst s'.
    split; [reflexivity|]. apply final_store_perm, Hperm.
  - exists two_panels.
    eexists. eexists. split; [vm_compute; reflexivity|].
    simpl. discriminate.
  - intros roll Rng s layout s'. unfold call_pack.
    destruct (pack roll (pieces_obj s)) as [l|]; simpl; [|discriminate].
    intros [= <- <-]. auto.
Qed.

(** ** Worked instances *)

Lemma reversing_shuffle_perm (g : unit) (l : list Piece) :
  Permutation l (fst (reversing_shuffle g l)).
Proof. apply Permutation_rev. Qed.

Lemma four_squares_positive : Forall positive_piece four_squares.
Proof.
  unfold four_squares, positive_piece. simpl.
  repeat constructor; simpl; reflexivity.
Qed.

(** The specification's scenario: width 300 on a roll of 137 with overlap
    1 is cut into three strips of width 302/3. *)
Lemma tile_width_only_smallest_fit_scenario :
  tile_width_only 1 300 137 = Some (strip_width 1 300 3, 3%Z).
Proof.
  apply (proj1 (tile_width_only_smallest_fit 1 300 137)).
  - lia.
  - unfold tile_bound, Qle. simpl. lia.
  - intros M HM. unfold tile_bound, Qle.
    assert (M = 1 \/ M = 2)%Z as [-> | ->] by lia; simpl; lia.
Defined.

(** Raising the overlap from 1 to 60 moves the same panel from three to
    four strips. *)
Lemma tile_count_monotone_scenario :
  1 <= 60 /\
  tile_width_only 1 300 137 = Some (strip_width 1 300 3, 3%Z) /\
  tile_width_only 60 300 137 = Some (strip_width 60 300 4, 4%Z) /\
  (3 <= 4)%Z.
Proof.
  assert (1 <= 60) as H0 by (unfold Qle; simpl; lia).
  assert (tile_width_only 1 300 137 = Some (strip_width 1 300 3, 3%Z)) as H1
    by (vm_compute; reflexivity).
  assert (tile_width_only 60 300 137 = Some (strip_width 60 300 4, 4%Z)) as H2
    by (vm_compute; reflexivity).
  split; [exact H0|]. split; [exact H1|]. split; [exact H2|].
  exact (tile_count_monotone_in_overlap 300 137 1 60 _ _ 3 4 H0 H1 H2).
Defined.

(** Four squares on a roll of 137: two rows of two. *)
Lemma pack_four_squares :
  pack 137 four_squares =
  Value (Some [(1%Z, 0, 0, 50, 50); (1%Z, 50, 0, 50, 50);
               (1%Z, 0, 50, 50, 50); (1%Z, 50, 50, 50, 50)]).
Proof. vm_compute. reflexivity. Qed.

Lemma pack_all_or_nothing_scenario :
  exists layout,
    pack 137 four_squares = Value (Some layout) /\
    Forall2 placement_of four_squares layout.
Proof.
  destruct (proj1 (pack_all_or_nothing 137 four_squares))
    as [Hdone|[Hfail _]]; [exact Hdone|].
  rewrite pack_four_squares in Hfail. discriminate Hfail.
Defined.

(** The wide panel becomes three strips of width 302/3. *)
Lemma expand_wide_panel :
  expand 1 137 wide_panel =
  Some (repeat (mkPiece 1 [(302 # 3, 50); (50, 302 # 3)]) 3).
Proof. vm_compute. reflexivity. Qed.

Lemma expand_all_or_nothing_scenario :
  exists blocks,
    repeat (mkPiece 1 [(302 # 3, 50); (50, 302 # 3)]) 3 = concat blocks /\
    Forall2 (job_block 1 137) wide_panel blocks.
Proof.
  exact (proj2 (expand_all_or_nothing 1 137 wide_panel) _ expand_wide_panel).
Defined.





(** A length of zero does not count as a best length: of two passes
    that both give a layout of length 0, [optimize] returns the layout of
    the second. *)
Lemma optimize_zero_length_replaces_earliest :
  exists order1 order2 layout1 layout2 s',
    attempts reversing_shuffle 2 (mkStore flat_panels tt)
    = [order1; order2] /\
    pack 137 order1 = Value (Some layout1) /\ length layout1 = Value 0 /\
    pack 137 order2 = Value (Some layout2) /\ length layout2 = Value 0 /\
    layout1 <> layout2 /\
    optimize 137 2 reversing_shuffle (mkStore flat_panels tt)
    = Value (Some layout2, Some 0, s').
Proof.
  eexists. eexists. eexists. eexists. eexists.
  split; [vm_compute; reflexivity|].
  split; [vm_compute; reflexivity|]. split; [vm_compute; reflexivity|].
  split; [vm_compute; reflexivity|]. split; [vm_compute; reflexivity|].
  split; [discriminate|]. vm_compute. reflexivity.
Qed.

Lemma optimize_four_squares :
  optimize 137 3 reversing_shuffle (mkStore four_squares tt) =
  Value (Some [(1%Z, 0, 0, 50, 50); (1%Z, 50, 0, 50, 50);
               (1%Z, 0, 50, 50, 50); (1%Z, 50, 50, 50, 50)],
         Some 100, mkStore four_squares tt).
Proof. vm_compute. reflexivity. Qed.

Lemma optimize_returns_first_shortest_scenario :
  exists best_layout best_len s',
    optimize 137 3 reversing_shuffle (mkStore four_squares tt)
      = Value (best_layout, best_len, s') /\
    List.length (attempts reversing_shuffle 3 (mkStore four_squares tt)) = 3%nat.
Proof.
  destruct (optimize_returns_first_shortest 137 unit reversing_shuffle
              reversing_shuffle_perm 3 (mkStore four_squares tt)
              four_squares_positive)
    as (best_layout & best_len & s' & Hrun & Hlen & _).
  exists best_layout, best_len, s'. split; assumption.
Defined.

(** The empty piece list: no layout, no length. *)
Lemma optimize_empty_scenario :
  exists s',
    optimize 137 150 reversing_shuffle (mkStore [] tt) = Value (None, None, s').
Proof.
  destruct (optimize_empty_returns_none 137 unit reversing_shuffle
              reversing_shuffle_perm 1 150 (mkStore [] tt) eq_refl)
    as (_ & _ & _ & s' & Hrun & _).
  exists s'. exact Hrun.
Defined.

(** [optimize] on the empty piece list returns [(None, None)], not an
    empty layout of length 0. *)
Lemma optimize_empty_not_zero_length :
  optimize 137 150 reversing_shuffle (mkStore [] tt)
    = Value (None, None, mkStore [] tt) /\
  optimize 137 150 reversing_shuffle (mkStore [] tt)
    <> Value (Some [], Some 0, mkStore [] tt).
Proof.
  split.
  - vm_compute. reflexivity.
  - vm_compute. discriminate.
Qed.

(** One pass over two panels leaves the caller's list reversed. *)
Lemma optimize_shuffles_callers_list_scenario :
  Permutation two_panels
    (pieces_obj (final_store reversing_shuffle 1 (mkStore two_panels tt))).
Proof.
  destruct (optimize_loop_returns 137 unit reversing_shuffle 1 None None
              (mkStore two_panels tt)) as (best_layout & best_len & Hrun).
  destruct (proj1 optimize_shuffles_callers_list 137 1%nat unit
              reversing_shuffle reversing_shuffle_perm
              (mkStore two_panels tt) (best_layout, best_len) _ Hrun)
    as [_ Hperm].
  exact Hperm.
Defined.

(** * Further properties of the program *)

(** ** The roll finder *)

Lemma rows_for_app (art_w art_h roll : Q) (results : list Row) :
  rows_for art_w art_h roll results =
  results
  ++ (if Qle_bool art_w roll
      then [(roll, Normal, art_h, roll * art_h - art_w * art_h)] else [])
  ++ (if Qle_bool art_h roll
      then [(roll, Rotated90, art_w, roll * art_w - art_w * art_h)] else []).
Proof.
  unfold rows_for.
  destruct (Qle_bool art_w roll), (Qle_bool art_h roll); simpl;
    rewrite <- ?app_assoc, ?app_nil_r; reflexivity.
Qed.

Lemma in_rows_for (art_w art_h roll : Q) (results : list Row) (r : Row) :
  In r (rows_for art_w art_h roll results) <->
  In r results \/ option_row [roll] art_w art_h r.
Proof.
  rewrite rows_for_app, !in_app_iff. unfold option_row.
  destruct r as [[[roll' o] used] waste]. split.
  - intros [H|[H|H]]; [left; exact H| |].
    + destruct (Qle_bool art_w roll) eqn:E; [|destruct H].
      destruct H as [[= <- <- <- <-]|[]]. apply Qle_bool_iff in E.
      right. simpl. auto.
    + destruct (Qle_bool art_h roll) eqn:E; [|destruct H].
      destruct H as [[= <- <- <- <-]|[]]. apply Qle_bool_iff in E.
      right. simpl. auto.
  - intros [H|[[<-|[]] H]]; [left; exact H|right].
    destruct o; destruct H as (Hfit & -> & ->); apply Qle_bool_iff in Hfit;
      rewrite Hfit; simpl; auto.
Qed.

Lemma in_collect_rows (art_w art_h : Q) (rolls : list Q)
  (results : list Row) (r : Row) :
  In r (collect_rows art_w art_h rolls results) <->
  In r results \/ option_row rolls art_w art_h r.
Proof.
  revert results. induction rolls as [|roll rolls IH]; intros results; simpl.
  - split; [auto|]. intros [H|H]; [exact H|].
    destruct r as [[[roll' o] used] waste]. destruct H as [[] _].
  - rewrite IH, in_rows_for. unfold option_row.
    destruct r as [[[roll' o] used] waste]. simpl. tauto.
Qed.

Lemma key_lt_iff (a b : Row) :
  key_lt a b = true <->
  let '(roll_a, _, _, waste_a) := a in
  let '(roll_b, _, _, waste_b) := b in
  waste_a < waste_b \/ (waste_a == waste_b /\ roll_a < roll_b).
Proof.
  destruct a as [[[ra oa] ua] wa], b as [[[rb ob] ub] wb]. unfold key_lt.
  rewrite orb_true_iff, andb_true_iff, !Qltb_iff, Qeq_bool_iff. reflexivity.
Qed.

Lemma key_lt_le (a b : Row) : key_lt a b = true -> key_le a b.
Proof.
  intros H. apply key_lt_iff in H.
  destruct a as [[[ra oa] ua] wa], b as [[[rb ob] ub] wb]. unfold key_le.
  destruct H as [H|[H1 H2]]; [left; exact H|right].
  split; [exact H1|apply Qlt_le_weak, H2].
Qed.

Lemma key_not_lt_le (a b : Row) : key_lt a b = false -> key_le b a.
Proof.
  intros H.
  assert (~ key_lt a b = true) as Hn by congruence.
  rewrite key_lt_iff in Hn.
  destruct a as [[[ra oa] ua] wa], b as [[[rb ob] ub] wb]. unfold key_le.
  destruct (Qlt_le_dec wb wa) as [Hlt|Hle]; [left; exact Hlt|right].
  destruct (Qlt_le_dec wa wb) as [Hlt'|Hle']; [tauto|].
  assert (wa == wb) as Heq by (apply Qle_antisym; assumption).
  split; [symmetry; exact Heq|].
  destruct (Qlt_le_dec ra rb) as [Hr|Hr]; [tauto|exact Hr].
Qed.

Lemma key_le_refl (a : Row) : key_le a a.
Proof.
  destruct a as [[[ra oa] ua] wa]. right. split; [reflexivity|apply Qle_refl].
Qed.

Lemma key_le_trans (a b c : Row) : key_le a b -> key_le b c -> key_le a c.
Proof.
  destruct a as [[[ra oa] ua] wa], b as [[[rb ob] ub] wb],
           c as [[[rc oc] uc] wc].
  unfold key_le. intros [H1|[H1 H1']] [H2|[H2 H2']].
  - left. lra.
  - left. lra.
  - left. lra.
  - right. split; lra.
Qed.

Lemma insert_row_perm (x : Row) (l : list Row) :
  Permutation (x :: l) (insert_row x l).
Proof.
  induction l as [|y l IH]; simpl; [apply Permutation_refl|].
  destruct (key_lt y x); [|apply Permutation_refl].
  eapply Permutation_trans; [apply perm_swap|]. apply perm_skip, IH.
Qed.

Lemma sort_rows_perm (l : list Row) : Permutation l (sort_rows l).
Proof.
  induction l as [|x l IH]; simpl; [constructor|].
  eapply Permutation_trans; [apply perm_skip, IH|apply insert_row_perm].
Qed.

Lemma insert_row_sorted (x : Row) (l : list Row) :
  StronglySorted key_le l -> StronglySorted key_le (insert_row x l).
Proof.
  induction 1 as [|y l Hl IH Hy]; simpl.
  - repeat constructor.
  - destruct (key_lt y x) eqn:E.
    + constructor; [exact IH|].
      apply (Permutation_Forall (insert_row_perm x l)).
      constructor; [apply key_lt_le, E|exact Hy].
    + apply key_not_lt_le in E. constructor.
      * constructor; assumption.
      * constructor; [exact E|].
        eapply Forall_impl; [|exact Hy]. intros z Hz.
        apply (key_le_trans x y z); assumption.
Qed.

Lemma sort_rows_sorted (l : list Row) : StronglySorted key_le (sort_rows l).
Proof.
  induction l as [|x l IH]; simpl; [constructor|].
  apply insert_row_sorted, IH.
Qed.

Lemma in_firstn (n : nat) (l : list Row) (x : Row) :
  In x (firstn n l) -> In x l.
Proof.
  intros H. rewrite <- (firstn_skipn n l). apply in_or_app. now left.
Qed.

Lemma firstn_sorted (n : nat) (l : list Row) :
  StronglySorted key_le l -> StronglySorted key_le (firstn n l).
Proof.
  intros H. revert n. induction H as [|x l Hl IH Hx]; intros n.
  - rewrite firstn_nil. constructor.
  - destruct n as [|n]; simpl; constructor; [apply IH|].
    rewrite Forall_forall in *. intros y Hy.
    apply Hx. apply (in_firstn n l y Hy).
Qed.

Lemma in_find_top10 (art_w art_h : Q) (r : Row) :
  In r (find_top10 art_w art_h) -> option_row ROLL_WIDTHS art_w art_h r.
Proof.
  unfold find_top10. intros H. apply in_firstn in H.
  apply (Permutation_in _ (Permutation_sym (sort_rows_perm _))) in H.
  apply in_collect_rows in H. destruct H as [[]|H]. exact H.
Qed.

Lemma roll_widths_bounded : Forall (fun roll => roll <= 320) ROLL_WIDTHS.
Proof.
  unfold ROLL_WIDTHS. repeat (constructor; [unfold Qle; simpl; lia|]).
  constructor.
Qed.

Lemma widest_roll : In 320 ROLL_WIDTHS.
Proof. unfold ROLL_WIDTHS. repeat first [left; reflexivity | right]. Qed.

Lemma option_row_collected (art_w art_h : Q) (r : Row) :
  option_row ROLL_WIDTHS art_w art_h r ->
  In r (sort_rows (collect_rows art_w art_h ROLL_WIDTHS [])).
Proof.
  intros H. apply (Permutation_in _ (sort_rows_perm _)).
  apply in_collect_rows. now right.
Qed.

Lemma sorted_app_le (l1 l2 : list Row) :
  StronglySorted key_le (l1 ++ l2) ->
  forall a b, In a l1 -> In b l2 -> key_le a b.
Proof.
  induction l1 as [|x l1 IH]; intros H a b Ha Hb; [destruct Ha|].
  simpl in H. inversion H as [|? ? Hs Hx]; subst.
  destruct Ha as [<-|Ha].
  - rewrite Forall_forall in Hx. apply Hx, in_or_app. now right.
  - apply IH; assumption.
Qed.

(** X1.  Every row of [find_top10] is an option of the artwork: a stock
    width on which it fits in that orientation, with the other dimension
    as the used length and [roll * used - art_w * art_h] as the waste. *)
Theorem find_top10_rows_are_options (art_w art_h : Q) (r : Row) :
  In r (find_top10 art_w art_h) -> option_row ROLL_WIDTHS art_w art_h r.
Proof. apply in_find_top10. Qed.

(** X2.  [find_top10] returns at most ten rows, in ascending order of
    [(waste, roll)]. *)
Theorem find_top10_sorted (art_w art_h : Q) :
  StronglySorted key_le (find_top10 art_w art_h) /\
  (List.length (find_top10 art_w art_h) <= 10)%nat.
Proof.
  unfold find_top10. split.
  - apply firstn_sorted, sort_rows_sorted.
  - apply firstn_le_length.
Qed.

(** X3.  [find_top10] returns no row exactly when the artwork exceeds the
    widest roll, 320, in both dimensions. *)
Theorem find_top10_empty_iff (art_w art_h : Q) :
  find_top10 art_w art_h = [] <-> 320 < art_w /\ 320 < art_h.
Proof.
  split.
  - intros Hnil.
    assert (forall r, ~ option_row ROLL_WIDTHS art_w art_h r) as Hno.
    { intros r Hr. apply option_row_collected in Hr.
      unfold find_top10 in Hnil.
      destruct (sort_rows _) as [|x l]; [destruct Hr|discriminate]. }
    split; apply Qnot_le_lt; intros Hle.
    + apply (Hno (320, Normal, art_h, 320 * art_h - art_w * art_h)).
      split; [apply widest_roll|auto].
    + apply (Hno (320, Rotated90, art_w, 320 * art_w - art_w * art_h)).
      split; [apply widest_roll|auto].
  - intros [Hw Hh].
    destruct (find_top10 art_w art_h) as [|r l] eqn:E; [reflexivity|].
    assert (option_row ROLL_WIDTHS art_w art_h r) as Hr.
    { apply in_find_top10. rewrite E. now left. }
    destruct r as [[[roll o] used] waste]. destruct Hr as [Hroll Hr].
    pose proof roll_widths_bounded as Hb. rewrite Forall_forall in Hb.
    specialize (Hb roll Hroll).
    destruct o; destruct Hr as (Hfit & _); lra.
Qed.

(** X4.  The first row of [find_top10] is the best option: no option of
    the artwork has less waste, nor the same waste on a narrower roll. *)
Theorem find_top10_best_first (art_w art_h : Q) (r : Row)
  (rest : list Row) (r' : Row) :
  find_top10 art_w art_h = r :: rest ->
  option_row ROLL_WIDTHS art_w art_h r' ->
  key_le r r'.
Proof.
  unfold find_top10. intros Htop Hopt.
  apply option_row_collected in Hopt.
  pose proof (sort_rows_sorted (collect_rows art_w art_h ROLL_WIDTHS []))
    as Hsorted.
  destruct (sort_rows _) as [|x l]; [destruct Hopt|].
  simpl in Htop. injection Htop as -> _.
  inversion Hsorted as [|? ? _ Hx]; subst.
  destruct Hopt as [<-|Hin]; [apply key_le_refl|].
  rewrite Forall_forall in Hx. apply Hx, Hin.
Qed.

(** X5.  Nothing better is cut off: an option of the artwork is among
    the rows of [find_top10], or there are ten rows and none of them
    comes after it in the order of [(waste, roll)]. *)
Theorem find_top10_keeps_the_best (art_w art_h : Q) (r' : Row) :
  option_row ROLL_WIDTHS art_w art_h r' ->
  In r' (find_top10 art_w art_h) \/
  (List.length (find_top10 art_w art_h) = 10%nat /\
   Forall (fun r => key_le r r') (find_top10 art_w art_h)).
Proof.
  unfold find_top10. intros Hopt. apply option_row_collected in Hopt.
  pose proof (sort_rows_sorted (collect_rows art_w art_h ROLL_WIDTHS []))
    as Hsorted.
  set (l := sort_rows (collect_rows art_w art_h ROLL_WIDTHS [])) in *.
  rewrite <- (firstn_skipn 10 l) in Hopt, Hsorted.
  apply in_app_or in Hopt. destruct Hopt as [Hin|Hin]; [left; exact Hin|].
  right. split.
  - rewrite length_firstn. apply Nat.min_l.
    destruct (Nat.le_gt_cases 10 (List.length l)) as [H|H]; [exact H|].
    rewrite skipn_all2 in Hin by lia. destruct Hin.
  - apply Forall_forall. intros r Hr.
    apply (sorted_app_le _ _ Hsorted r r' Hr Hin).
Qed.

(** X6.  For an artwork of non-negative dimensions no row of [find_top10]
    has a negative waste. *)
Theorem find_top10_waste_nonneg (art_w art_h : Q) (r : Row) :
  0 <= art_w -> 0 <= art_h ->
  In r (find_top10 art_w art_h) ->
  let '(_, _, _, waste) := r in 0 <= waste.
Proof.
  intros Hw Hh Hin. apply in_find_top10 in Hin.
  destruct r as [[[roll o] used] waste]. destruct Hin as [_ Hr].
  destruct o; destruct Hr as (Hfit & _ & ->).
  - assert (0 <= (roll - art_w) * art_h) as H
      by (apply Qmult_le_0_compat; lra).
    lra.
  - assert (0 <= (roll - art_h) * art_w) as H
      by (apply Qmult_le_0_compat; lra).
    lra.
Qed.

(** ** More on tiling and expansion *)

(** X8.  A panel is left in one piece exactly when it is not wider than
    the roll: the tile count returned is 1 if and only if [w <= roll]. *)
Theorem tile_count_one_iff (o w roll s : Q) (N : Z) :
  tile_width_only o w roll = Some (s, N) ->
  (N = 1%Z <-> w <= roll).
Proof.
  intros H. apply tile_width_only_some in H.
  destruct H as (Hr & Hb & Hmin & _). split.
  - intros ->. apply (tile_bound_one o), Hb.
  - intros Hw. destruct (Z.eq_dec N 1) as [E|E]; [exact E|exfalso].
    apply (Hmin 1%Z); [lia|]. apply tile_bound_one, Hw.
Qed.

Lemma expand_loop_acc (o roll : Q) (jobs : list Job) (acc : list Piece) :
  expand_loop o roll jobs acc =
  match expand_loop o roll jobs [] with
  | Some pieces => Some (acc ++ pieces)
  | None => None
  end.
Proof.
  revert acc. induction jobs as [|[[[id w] h] q] jobs IH]; intros acc; simpl.
  - now rewrite app_nil_r.
  - destruct (tile_width_only o w roll) as [[tile_w n]|]; [|reflexivity].
    rewrite IH. rewrite (IH (append_q _ _ _ [])).
    destruct (expand_loop o roll jobs []) as [pieces|]; [|reflexivity].
    rewrite !append_q_repeat, <- app_assoc. reflexivity.
Qed.

Lemma expand_loop_app (o roll : Q) (jobs1 jobs2 : list Job)
  (acc : list Piece) :
  expand_loop o roll (jobs1 ++ jobs2) acc =
  match expand_loop o roll jobs1 acc with
  | Some pieces => expand_loop o roll jobs2 pieces
  | None => None
  end.
Proof.
  revert acc. induction jobs1 as [|[[[id w] h] q] jobs1 IH]; intros acc; simpl.
  - reflexivity.
  - destruct (tile_width_only o w roll) as [[tile_w n]|]; [|reflexivity].
    apply IH.
Qed.

(** X9.  [expand] distributes over concatenation of job lists: the pieces
    of [jobs1 ++ jobs2] are those of [jobs1] followed by those of
    [jobs2], and the expansion fails as soon as one of the two does. *)
Theorem expand_app (o roll : Q) (jobs1 jobs2 : list Job) :
  expand o roll (jobs1 ++ jobs2) =
  match expand o roll jobs1, expand o roll jobs2 with
  | Some pieces1, Some pieces2 => Some (pieces1 ++ pieces2)
  | _, _ => None
  end.
Proof.
  unfold expand. rewrite expand_loop_app.
  destruct (expand_loop o roll jobs1 []) as [pieces1|].
  - apply expand_loop_acc.
  - destruct (expand_loop o roll jobs2 []); reflexivity.
Qed.

(** ** More on the packer *)

(** X11.  [pack] works piece by piece: when it lays out [pre ++ post],
    the layout starts with the layout of [pre] alone, and when it fails on
    [pre] it fails on [pre ++ post]. *)
Theorem pack_prefix (roll : Q) (pre post : list Piece) :
  (pack roll pre = Value None -> pack roll (pre ++ post) = Value None) /\
  (forall layout,
      pack roll (pre ++ post) = Value (Some layout) ->
      exists l1 l2,
        layout = l1 ++ l2 /\ pack roll pre = Value (Some l1) /\
        Forall2 placement_of pre l1 /\ Forall2 placement_of post l2).
Proof.
  unfold pack. rewrite !pack_loop_run_steps, run_steps_app.
  destruct (run_steps_cases pre (initial_state roll))
    as [(free1 & l1 & Hpre & Hall1)|(Hpre & _)]; rewrite Hpre; simpl.
  - split; [discriminate|].
    intros layout Hrun.
    destruct (run_steps_cases post (free1, l1))
      as [(free2 & l2 & Hpost & Hall2)|(Hpost & _)];
      rewrite Hpost in Hrun; simpl in Hrun; [|discriminate].
    injection Hrun as <-. exists l1, l2. auto.
  - split; [reflexivity|discriminate].
Qed.

(** X12.  The first piece goes to the origin of the roll. *)
Theorem pack_first_at_origin (roll : Q) (p : Piece) (rest : list Piece)
  (layout : Layout) :
  pack roll (p :: rest) = Value (Some layout) ->
  exists w h tail,
    layout = (pid p, 0, 0, w, h) :: tail /\
    In (w, h) (orientations p) /\ w <= roll /\ h <= 10000.
Proof.
  unfold pack. rewrite pack_loop_run_steps, run_steps_cons.
  destruct (initial_state roll) as [free placed] eqn:Hinit.
  unfold initial_state in Hinit. injection Hinit as Hfree0 Hplaced0.
  destruct (pack_step_cases free placed p) as [[H _]|H].
  - rewrite H. discriminate.
  - destruct H as (f1 & f2 & o1 & o2 & fx & fy & fw & fh & w & h & right
                   & bottom & Hfree & Hos & Hw & Hh & _ & _ & _ & _ & _ & E).
    rewrite E. cbv beta iota delta [bind]. subst free placed.
    assert (f1 = [] /\ (fx, fy, fw, fh) = (0, 0, roll, 10000)) as [-> Hf].
    { destruct f1 as [|a f1]; [injection Hfree as <- <- <- <-; auto|].
      destruct f1; discriminate. }
    injection Hf as -> -> -> ->.
    match goal with
    | |- context [run_steps rest ?st] =>
        destruct (run_steps_cases rest st)
          as [(free' & added & Hrun & _)|(Hrun & _)]
    end; rewrite Hrun; simpl; [|discriminate].
    intros [= <-]. exists w, h, added. repeat split; auto.
    rewrite Hos. apply in_elt.
Qed.

(** X13.  [pack] fails on a single piece exactly when none of its
    orientations fits the empty working area of [roll] by 10000. *)
Theorem pack_single_fails_iff (roll : Q) (p : Piece) :
  pack roll [p] = Value None <->
  forall w h, In (w, h) (orientations p) -> ~ (w <= roll /\ h <= 10000).
Proof.
  unfold pack. rewrite pack_loop_run_steps, run_steps_cons.
  destruct (initial_state roll) as [free placed] eqn:Hinit.
  unfold initial_state in Hinit. injection Hinit as Hfree0 Hplaced0.
  destruct (pack_step_cases free placed p) as [[H Hno]|H].
  - rewrite H. simpl. split; [|reflexivity].
    intros _ w h Hin. subst free.
    apply (Hno (0, 0, roll, 10000) (w, h)); simpl; auto.
  - destruct H as (f1 & f2 & o1 & o2 & fx & fy & fw & fh & w & h & right
                   & bottom & Hfree & Hos & Hw & Hh & _ & _ & _ & _ & _ & E).
    rewrite E. simpl. split; [discriminate|].
    intros Hno. exfalso. subst free.
    assert ((fx, fy, fw, fh) = (0, 0, roll, 10000)) as Hf.
    { destruct f1 as [|a f1]; [injection Hfree as <- <- <- <-; auto|].
      destruct f1; discriminate. }
    injection Hf as -> -> -> ->.
    apply (Hno w h); [rewrite Hos; apply in_elt|auto].
Qed.

(** X14.  A piece with the orientations [(w, h)] and [(h, w)] is placed
    turned only when, as it is, it does not fit the free rectangle it
    goes into. *)
Theorem pack_step_turns_only_if_needed (free : list FreeRect)
  (placed : Layout) (p : Piece) (w h : Q) (st' : PackState) :
  orientations p = [(w, h); (h, w)] ->
  pack_step (free, placed) p = Value (Some st') ->
  exists fx fy fw fh,
    In (fx, fy, fw, fh) free /\
    (snd st' = placed ++ [(pid p, fx, fy, w, h)] \/
     (snd st' = placed ++ [(pid p, fx, fy, h, w)] /\
      ~ (w <= fw /\ h <= fh))).
Proof.
  intros Hp Hstep.
  destruct (pack_step_cases free placed p) as [[H _]|H]; [congruence|].
  destruct H as (f1 & f2 & o1 & o2 & fx & fy & fw & fh & w' & h' & right
                 & bottom & Hfree & Hos & Hw & Hh & _ & _ & Hearlier & _ & _
                 & E).
  rewrite E in Hstep. injection Hstep as <-. simpl.
  exists fx, fy, fw, fh. split; [rewrite Hfree; apply in_elt|].
  rewrite Hp in Hos.
  destruct o1 as [|a o1].
  - injection Hos as <- <- _. left. reflexivity.
  - injection Hos as <- Hos.
    destruct o1 as [|b o1].
    + injection Hos as <- <- _. right. split; [reflexivity|].
      intros Hfit. specialize (Hearlier (w, h) (or_introl eq_refl) Hfit).
      simpl in Hearlier. lra.
    + injection Hos as _ Hos. destruct o1; discriminate.
Qed.

(** ** More on [length] and the search *)

(** X16.  [length] raises exactly on the empty layout; otherwise it
    returns the largest end [y + h] over the placements: some placement
    ends there and none ends beyond. *)
Theorem length_is_maximum (layout : Layout) :
  (length layout = ValueError <-> layout = []) /\
  (forall l,
      length layout = Value l ->
      (exists id x y w h, In (id, x, y, w, h) layout /\ l = y + h) /\
      Forall (fun pl : Placed => let '(_, _, y, _, h) := pl in y + h <= l)
             layout).
Proof.
  split; [|apply length_spec].
  split.
  - intros H. destruct layout as [|pl layout]; [reflexivity|].
    destruct (length_defined (pl :: layout)) as [l Hl]; congruence.
  - intros ->. reflexivity.
Qed.

Lemma attempts_app (Rng : Type)
  (shuffle : Rng -> list Piece -> list Piece * Rng) (n k : nat)
  (s : Store Rng) :
  attempts shuffle (n + k) s =
  attempts shuffle n s ++ attempts shuffle k (final_store shuffle n s).
Proof.
  revert s. induction n as [|n IH]; intros s; simpl; [reflexivity|].
  rewrite IH. reflexivity.
Qed.

Section SearchMore.

Variable ROLL_WIDTH : Q.
Variable Rng : Type.
Variable shuffle : Rng -> list Piece -> list Piece * Rng.

Hypothesis shuffle_perm :
  forall g l, Permutation l (fst (shuffle g l)).

Lemma optimize_loop_attempted (n : nat) (s : Store Rng)
  (best_len : option Q) (best_layout : option Layout)
  (seen : list (list Piece)) :
  (best_layout = None /\ best_len = None) \/
  (exists ps layout l,
      In ps seen /\ attempt_result ROLL_WIDTH ps = Some (layout, l) /\
      best_layout = Some layout /\ best_len = Some l) ->
  exists best_layout' best_len',
    optimize_loop ROLL_WIDTH shuffle n best_len best_layout s =
    Value (best_layout', best_len', final_store shuffle n s) /\
    ((best_layout' = None /\ best_len' = None) \/
     (exists ps layout l,
         In ps (seen ++ attempts shuffle n s) /\
         attempt_result ROLL_WIDTH ps = Some (layout, l) /\
         best_layout' = Some layout /\ best_len' = Some l)).
Proof.
  revert s best_len best_layout seen.
  induction n as [|n IH]; intros s best_len best_layout seen Hinv.
  - simpl. rewrite app_nil_r. eauto.
  - rewrite optimize_loop_step. cbv zeta. cbn [final_store attempts].
    set (s1 := random_shuffle shuffle s).
    replace (seen ++ pieces_obj s1 :: attempts shuffle n s1)
      with ((seen ++ [pieces_obj s1]) ++ attempts shuffle n s1)
      by (rewrite <- app_assoc; reflexivity).
    assert ((best_layout = None /\ best_len = None) \/
            (exists ps layout l,
                In ps (seen ++ [pieces_obj s1]) /\
                attempt_result ROLL_WIDTH ps = Some (layout, l) /\
                best_layout = Some layout /\ best_len = Some l)) as Hkeep.
    { destruct Hinv as [H|(ps & layout & l & Hin & H)]; [left; exact H|].
      right. exists ps, layout, l. split; [|exact H].
      apply in_or_app. now left. }
    destruct (attempt_result ROLL_WIDTH (pieces_obj s1))
      as [[layout l]|] eqn:E; [|apply IH, Hkeep].
    destruct (improves best_len l); [|apply IH, Hkeep].
    apply IH. right. exists (pieces_obj s1), layout, l.
    repeat split; auto. apply in_or_app. right. now left.
Qed.

(** X17.  [optimize] never raises, whatever the pieces.  It returns
    either [(None, None)] or a layout together with its own [length],
    and that layout is what [pack] made of one of the orders tried, a
    rearrangement of the pieces, so it holds one placement per piece. *)
Theorem optimize_returns_attempted_layout (passes : nat) (s : Store Rng) :
  exists best_layout best_len,
    optimize ROLL_WIDTH passes shuffle s =
    Value (best_layout, best_len, final_store shuffle passes s) /\
    ((best_layout = None /\ best_len = None) \/
     (exists ps layout l,
         best_layout = Some layout /\ best_len = Some l /\
         In ps (attempts shuffle passes s) /\
         Permutation (pieces_obj s) ps /\
         pack ROLL_WIDTH ps = Value (Some layout) /\
         Forall2 placement_of ps layout /\
         length layout = Value l)).
Proof.
  unfold optimize.
  destruct (optimize_loop_attempted passes s None None [])
    as (best_layout & best_len & Hrun & Hres); [left; auto|].
  exists best_layout, best_len. split; [exact Hrun|].
  destruct Hres as [H|(ps & layout & l & Hin & Hps & -> & ->)];
    [left; exact H|right].
  simpl in Hin. apply attempt_result_some in Hps. destruct Hps as [Hpack Hlen].
  exists ps, layout, l. repeat split; auto.
  - pose proof (attempts_perm Rng shuffle shuffle_perm passes s) as Hperm.
    rewrite Forall_forall in Hperm. apply Hperm, Hin.
  - destruct (pack_cases ROLL_WIDTH ps) as [(layout' & H & Hall)|(H & _)];
      [|congruence].
    rewrite Hpack in H. injection H as <-. exact Hall.
Qed.

(** X18.  More passes never give a longer result: with the same random
    source and pieces of positive dimensions, if [n] passes return a
    length, then [n + k] passes return a length that is not larger. *)
Theorem optimize_more_passes (n k : nat) (s : Store Rng)
  (layout : Layout) (m : Q) (s1 : Store Rng) :
  Forall positive_piece (pieces_obj s) ->
  optimize ROLL_WIDTH n shuffle s = Value (Some layout, Some m, s1) ->
  exists layout' m' s2,
    optimize ROLL_WIDTH (n + k) shuffle s = Value (Some layout', Some m', s2) /\
    m' <= m.
Proof.
  intros Hpos Hn. unfold optimize in *.
  destruct (optimize_loop_best ROLL_WIDTH Rng shuffle shuffle_perm n s
              None None [] Hpos)
    as (bl & bn & Hrun & Hbest); [constructor|].
  rewrite Hrun in Hn. injection Hn as -> -> _. simpl in Hbest.
  destruct Hbest as (_ & o1 & ps & o2 & Hsplit & Hps & _).
  destruct (optimize_loop_best ROLL_WIDTH Rng shuffle shuffle_perm (n + k) s
              None None [] Hpos)
    as (bl' & bn' & Hrun' & Hbest'); [constructor|].
  simpl in Hbest'. rewrite attempts_app, Hsplit in Hbest'.
  assert (In ps ((o1 ++ ps :: o2)
                 ++ attempts shuffle k (final_store shuffle n s))) as Hin.
  { apply in_or_app. left. apply in_elt. }
  unfold best_so_far in Hbest'.
  destruct bl' as [layout'|], bn' as [m'|]; try contradiction.
  - exists layout', m', (final_store shuffle (n + k) s).
    split; [exact Hrun'|].
    destruct Hbest' as (_ & p1 & ps' & p2 & Hsplit' & Hps' & H1 & H2).
    rewrite Hsplit' in Hin. apply in_app_or in Hin.
    rewrite Forall_forall in H1, H2.
    destruct Hin as [Hin|[<-|Hin]].
    + apply Qlt_le_weak. apply (H1 _ Hin _ _ Hps).
    + rewrite Hps in Hps'. injection Hps' as _ <-. apply Qle_refl.
    + apply (H2 _ Hin _ _ Hps).
  - rewrite Forall_forall in Hbest'. rewrite (Hbest' ps Hin) in Hps.
    discriminate.
Qed.

End SearchMore.

(** ** The job list and the run *)

Lemma collect_jobs_acc (i : Z) (inputs : list (Q * Q * nat))
  (acc : list Job) :
  collect_jobs i inputs acc = acc ++ collect_jobs i inputs [].
Proof.
  revert i acc. induction inputs as [|[[w h] q] inputs IH]; intros i acc; simpl.
  - now rewrite app_nil_r.
  - rewrite IH.
    rewrite (IH _ (if Qltb 0 w && Qltb 0 h && Nat.ltb 0 q
                   then [] ++ [(i, w, h, q)] else [])).
    destruct (Qltb 0 w && Qltb 0 h && Nat.ltb 0 q); simpl;
      rewrite <- ?app_assoc, ?app_nil_r; reflexivity.
Qed.

Lemma collect_jobs_cons (i : Z) (w h : Q) (q : nat)
  (inputs : list (Q * Q * nat)) :
  collect_jobs i ((w, h, q) :: inputs) [] =
  (if Qltb 0 w && Qltb 0 h && Nat.ltb 0 q then [(i, w, h, q)] else [])
  ++ collect_jobs (i + 1) inputs [].
Proof.
  simpl. rewrite collect_jobs_acc.
  destruct (Qltb 0 w && Qltb 0 h && Nat.ltb 0 q); reflexivity.
Qed.

Lemma kept_panel_iff (w h : Q) (q : nat) :
  Qltb 0 w && Qltb 0 h && Nat.ltb 0 q = true <->
  0 < w /\ 0 < h /\ (0 < q)%nat.
Proof.
  rewrite !andb_true_iff, !Qltb_iff, Nat.ltb_lt. tauto.
Qed.

Lemma in_collect_jobs (i : Z) (inputs : list (Q * Q * nat))
  (k : Z) (w h : Q) (q : nat) :
  In (k, w, h, q) (collect_jobs i inputs []) <->
  (i <= k)%Z /\ nth_error inputs (Z.to_nat (k - i)) = Some (w, h, q) /\
  0 < w /\ 0 < h /\ (0 < q)%nat.
Proof.
  revert i. induction inputs as [|[[w0 h0] q0] inputs IH]; intros i.
  - simpl. split; [tauto|]. intros (_ & H & _).
    destruct (Z.to_nat (k - i)); discriminate.
  - rewrite collect_jobs_cons, in_app_iff, IH. split.
    + intros [H|(Hi & Hnth & Hpos)].
      * destruct (Qltb 0 w0 && Qltb 0 h0 && Nat.ltb 0 q0) eqn:E;
          [|destruct H].
        destruct H as [[= <- <- <- <-]|[]]. apply kept_panel_iff in E.
        rewrite Z.sub_diag. simpl. split; [lia|]. split; [reflexivity|exact E].
      * split; [lia|]. split; [|exact Hpos].
        replace (Z.to_nat (k - i)) with (S (Z.to_nat (k - (i + 1)))) by lia.
        exact Hnth.
    + intros (Hi & Hnth & Hpos).
      destruct (Z.eq_dec k i) as [->|Hne].
      * left. rewrite Z.sub_diag in Hnth. simpl in Hnth.
        injection Hnth as -> -> ->.
        rewrite (proj2 (kept_panel_iff w h q) Hpos). now left.
      * right. split; [lia|]. split; [|exact Hpos].
        replace (Z.to_nat (k - i)) with (S (Z.to_nat (k - (i + 1)))) in Hnth
          by lia.
        exact Hnth.
Qed.

Lemma collect_jobs_ids_sorted (i : Z) (inputs : list (Q * Q * nat)) :
  StronglySorted Z.lt
    (map (fun j : Job => let '(k, _, _, _) := j in k)
         (collect_jobs i inputs [])).
Proof.
  revert i. induction inputs as [|[[w0 h0] q0] inputs IH]; intros i.
  - constructor.
  - rewrite collect_jobs_cons.
    destruct (Qltb 0 w0 && Qltb 0 h0 && Nat.ltb 0 q0); simpl; [|apply IH].
    constructor; [apply IH|].
    apply Forall_forall. intros k Hk. apply in_map_iff in Hk.
    destruct Hk as ([[[k' w] h] q] & <- & Hin).
    apply in_collect_jobs in Hin. lia.
Qed.

(** X19.  The job list holds exactly the panels whose width, height and
    quantity are all positive, each with its position in the sidebar
    (counted from 1) as its id, in sidebar order. *)
Theorem read_jobs_keeps_positive_panels (inputs : list (Q * Q * nat)) :
  (forall i w h q,
      In (i, w, h, q) (read_jobs inputs) <->
      (1 <= i)%Z /\ nth_error inputs (Z.to_nat (i - 1)) = Some (w, h, q) /\
      0 < w /\ 0 < h /\ (0 < q)%nat) /\
  StronglySorted Z.lt
    (map (fun j : Job => let '(k, _, _, _) := j in k) (read_jobs inputs)).
Proof.
  unfold read_jobs. split.
  - intros i w h q. apply in_collect_jobs.
  - apply collect_jobs_ids_sorted.
Qed.

Lemma expand_nonempty (o roll : Q) (jobs : list Job) :
  Forall (fun j : Job => let '(_, _, _, q) := j in (0 < q)%nat) jobs ->
  expand o roll jobs = Some [] -> jobs = [].
Proof.
  intros Hq H. apply expand_loop_some in H.
  destruct H as (blocks & Hnil & Hblocks). simpl in Hnil.
  destruct Hblocks as [|[[[id w] h] q] block jobs blocks Hb _]; [reflexivity|].
  exfalso. inversion Hq as [|? ? Hq0 _]; subst.
  unfold job_block in Hb. destruct Hb as (tile_w & n & Htile & -> & _).
  apply tile_width_only_some in Htile. destruct Htile as (Hn & _).
  simpl in Hnil. symmetry in Hnil. apply app_eq_nil in Hnil.
  destruct Hnil as [Hrep _].
  assert (q * Z.to_nat n <> 0)%nat as Hne by nia.
  destruct (q * Z.to_nat n)%nat; [congruence|discriminate].
Qed.

Section RunFacts.

Variables ROLL_WIDTH OVERLAP : Q.
Variable ITERATIONS : nat.
Variable Rng : Type.
Variable shuffle : Rng -> list Piece -> list Piece * Rng.

(** X20.  With jobs of positive quantity, the run stops with the error
    message exactly when there is no job at all or some job's width
    cannot be tiled. *)
Theorem run_stops_iff (jobs : list Job) (g : Rng) :
  Forall (fun j : Job => let '(_, _, _, q) := j in (0 < q)%nat) jobs ->
  (run_optimizer ROLL_WIDTH OVERLAP ITERATIONS shuffle jobs g = Stopped <->
   jobs = [] \/ Exists (untileable OVERLAP ROLL_WIDTH) jobs).
Proof.
  intros Hq. unfold run_optimizer.
  destruct (expand OVERLAP ROLL_WIDTH jobs) as [[|p rest]|] eqn:E.
  - split; [|reflexivity]. intros _. left.
    apply (expand_nonempty OVERLAP ROLL_WIDTH); assumption.
  - split.
    + destruct (optimize _ _ _ _) as [[[best total] s']|]; [|discriminate].
      destruct total; [|discriminate]. destruct best; discriminate.
    + intros [->|Hex]; [discriminate E|].
      apply expand_loop_none with (acc := []) in Hex.
      unfold expand in E. congruence.
  - split; [|reflexivity]. intros _. right.
    apply (expand_loop_none OVERLAP ROLL_WIDTH jobs []). exact E.
Qed.

Hypothesis shuffle_perm :
  forall g l, Permutation l (fst (shuffle g l)).

Lemma failed_attempt_of_pieces (ps : list Piece) :
  ps <> [] ->
  attempt_result ROLL_WIDTH ps = None ->
  pack ROLL_WIDTH ps = Value None.
Proof.
  intros Hne Hnone.
  destruct (pack_cases ROLL_WIDTH ps) as [(layout & Hpack & Hall)|(H & _)];
    [exfalso|exact H].
  assert (layout <> []) as Hl.
  { intros ->. inversion Hall. congruence. }
  destruct (length_defined layout Hl) as [l Hlen].
  rewrite (proj2 (attempt_result_some ROLL_WIDTH ps layout l)
             (conj Hpack Hlen)) in Hnone.
  discriminate.
Qed.

(** The outcome of the run once [expand] has given pieces. *)
Lemma run_after_expand (jobs : list Job) (g : Rng) (p : Piece)
  (rest : list Piece) :
  0 <= OVERLAP ->
  Forall (fun j : Job => let '(_, w, h, _) := j in 0 < w /\ 0 < h) jobs ->
  expand OVERLAP ROLL_WIDTH jobs = Some (p :: rest) ->
  let orders := attempts shuffle ITERATIONS (mkStore (p :: rest) g) in
  (run_optimizer ROLL_WIDTH OVERLAP ITERATIONS shuffle jobs g
     = RaisedTypeError /\
   Forall (fun ps => pack ROLL_WIDTH ps = Value None) orders)
  \/
  (exists layout m o1 ps o2,
      run_optimizer ROLL_WIDTH OVERLAP ITERATIONS shuffle jobs g =
      Shown (m / 100)
        (map (fun pl : Placed => let '(id, _, _, w, h) := pl in (id, w, h))
             layout) /\
      orders = o1 ++ ps :: o2 /\
      pack ROLL_WIDTH ps = Value (Some layout) /\
      length layout = Value m /\
      Forall (fun ps' => forall layout' l',
                  pack ROLL_WIDTH ps' = Value (Some layout') ->
                  length layout' = Value l' -> m < l') o1 /\
      Forall (fun ps' => forall layout' l',
                  pack ROLL_WIDTH ps' = Value (Some layout') ->
                  length layout' = Value l' -> m <= l') o2).
Proof.
  intros Ho Hjobs Hexp orders.
  assert (Forall positive_piece (p :: rest)) as Hpos
    by (apply (expand_positive OVERLAP ROLL_WIDTH jobs); assumption).
  unfold run_optimizer. rewrite Hexp. unfold optimize.
  destruct (optimize_loop_best ROLL_WIDTH Rng shuffle shuffle_perm ITERATIONS
              (mkStore (p :: rest) g) None None [] Hpos)
    as (best & total & Hrun & Hbest); [constructor|].
  rewrite Hrun. simpl in Hbest. fold orders in Hbest.
  unfold best_so_far in Hbest.
  destruct best as [layout|], total as [m|]; try contradiction.
  - right. destruct Hbest as (_ & o1 & ps & o2 & Hsplit & Hps & H1 & H2).
    apply attempt_result_some in Hps. destruct Hps as [Hpack Hlen].
    exists layout, m, o1, ps, o2. repeat split; auto.
    + eapply Forall_impl; [|exact H1]. intros ps' H layout' l' Hp Hl.
      apply (H layout' l'). apply attempt_result_some. auto.
    + eapply Forall_impl; [|exact H2]. intros ps' H layout' l' Hp Hl.
      apply (H layout' l'). apply attempt_result_some. auto.
  - left. split; [reflexivity|].
    pose proof (attempts_perm Rng shuffle shuffle_perm ITERATIONS
                  (mkStore (p :: rest) g)) as Hperm.
    fold orders in Hperm. rewrite Forall_forall in Hbest, Hperm.
    apply Forall_forall. intros ps Hin.
    apply failed_attempt_of_pieces; [|apply Hbest, Hin].
    intros ->. specialize (Hperm [] Hin). simpl in Hperm.
    apply Permutation_sym, Permutation_nil in Hperm. discriminate.
Qed.

(** X21.  With panels of positive dimensions and a non-negative overlap
    the run never raises [ValueError], and it raises [TypeError], at
    [total/100], exactly when there are pieces and every pass fails to
    pack them. *)
Theorem run_type_error_iff (jobs : list Job) (g : Rng) :
  0 <= OVERLAP ->
  Forall (fun j : Job => let '(_, w, h, _) := j in 0 < w /\ 0 < h) jobs ->
  run_optimizer ROLL_WIDTH OVERLAP ITERATIONS shuffle jobs g
    <> RaisedValueError /\
  (run_optimizer ROLL_WIDTH OVERLAP ITERATIONS shuffle jobs g
     = RaisedTypeError <->
   exists pieces,
     expand OVERLAP ROLL_WIDTH jobs = Some pieces /\ pieces <> [] /\
     Forall (fun ps => pack ROLL_WIDTH ps = Value None)
            (attempts shuffle ITERATIONS (mkStore pieces g))).
Proof.
  intros Ho Hjobs.
  destruct (expand OVERLAP ROLL_WIDTH jobs) as [[|p rest]|] eqn:E.
  - unfold run_optimizer. rewrite E. split; [discriminate|].
    split; [discriminate|]. intros (pieces & [= <-] & Hne & _). congruence.
  - destruct (run_after_expand jobs g p rest Ho Hjobs E)
      as [[Hrun Hall]|(layout & m & o1 & ps & o2 & Hrun & Hsplit & Hpack & _)];
      rewrite Hrun.
    + split; [discriminate|]. split; [|reflexivity].
      intros _. exists (p :: rest). repeat split; [discriminate|exact Hall].
    + split; [discriminate|]. split; [discriminate|].
      intros (pieces & [= <-] & _ & Hall). rewrite Hsplit in Hall.
      apply Forall_elt in Hall. congruence.
  - unfold run_optimizer. rewrite E. split; [discriminate|].
    split; [discriminate|]. intros (pieces & [=] & _).
Qed.

(** X22.  With panels of positive dimensions and a non-negative overlap,
    when the run reports a length, that length is a hundredth of the
    least [length] over the passes that produced a layout, and the table
    lists the placements of the first pass reaching it: one row
    [(pid, w, h)] per piece. *)
Theorem run_shows_best (jobs : list Job) (g : Rng) (meters : Q)
  (table : list (Z * Q * Q)) :
  0 <= OVERLAP ->
  Forall (fun j : Job => let '(_, w, h, _) := j in 0 < w /\ 0 < h) jobs ->
  run_optimizer ROLL_WIDTH OVERLAP ITERATIONS shuffle jobs g
    = Shown meters table ->
  exists pieces layout m o1 ps o2,
    expand OVERLAP ROLL_WIDTH jobs = Some pieces /\
    attempts shuffle ITERATIONS (mkStore pieces g) = o1 ++ ps :: o2 /\
    pack ROLL_WIDTH ps = Value (Some layout) /\
    length layout = Value m /\
    meters = m / 100 /\
    table = map (fun pl : Placed => let '(id, _, _, w, h) := pl in (id, w, h))
                layout /\
    List.length table = List.length pieces /\
    Forall (fun ps' => forall layout' l',
                pack ROLL_WIDTH ps' = Value (Some layout') ->
                length layout' = Value l' -> m < l') o1 /\
    Forall (fun ps' => forall layout' l',
                pack ROLL_WIDTH ps' = Value (Some layout') ->
                length layout' = Value l' -> m <= l') o2.
Proof.
  intros Ho Hjobs Hshown.
  destruct (expand OVERLAP ROLL_WIDTH jobs) as [[|p rest]|] eqn:E;
    try (unfold run_optimizer in Hshown; rewrite E in Hshown; discriminate).
  destruct (run_after_expand jobs g p rest Ho Hjobs E)
    as [[Hrun _]|(layout & m & o1 & ps & o2 & Hrun & Hsplit & Hpack & Hlen
                  & H1 & H2)];
    rewrite Hrun in Hshown; [discriminate|].
  injection Hshown as <- <-.
  exists (p :: rest), layout, m, o1, ps, o2. repeat split; auto.
  rewrite length_map.
  destruct (pack_cases ROLL_WIDTH ps) as [(layout' & H & Hall)|(H & _)];
    [|congruence].
  rewrite Hpack in H. injection H as <-.
  rewrite <- (Forall2_length Hall).
  pose proof (attempts_perm Rng shuffle shuffle_perm ITERATIONS
                (mkStore (p :: rest) g)) as Hperm.
  rewrite Hsplit in Hperm. apply Forall_elt in Hperm. simpl in Hperm.
  symmetry. apply (Permutation_length Hperm).
Qed.

End RunFacts.

(** ** Worked instances of the further properties *)

Lemma find_top10_example :
  find_top10 100 50 =
  [(50, Rotated90, 100, 0); (100, Normal, 50, 0);
   (51, Rotated90, 100, 100); (105, Normal, 50, 250);
   (106, Normal, 50, 300); (110, Normal, 50, 500);
   (112, Normal, 50, 600); (120, Normal, 50, 1000);
   (127, Normal, 50, 1350); (137, Normal, 50, 1850)].
Proof. vm_compute. reflexivity. Qed.

Lemma widest_option_example :
  option_row ROLL_WIDTHS 100 50 (320, Normal, 50, 320 * 50 - 100 * 50).
Proof.
  split; [apply widest_roll|]. repeat split. unfold Qle. simpl. lia.
Qed.

Lemma find_top10_rows_are_options_example :
  option_row ROLL_WIDTHS 100 50 (137, Normal, 50, 1850).
Proof.
  apply (find_top10_rows_are_options 100 50).
  rewrite find_top10_example. simpl. tauto.
Defined.

Lemma find_top10_best_first_example :
  key_le (50, Rotated90, 100, 0) (320, Normal, 50, 320 * 50 - 100 * 50).
Proof.
  exact (find_top10_best_first 100 50 _ _ _ find_top10_example
           widest_option_example).
Defined.

Lemma find_top10_keeps_the_best_example :
  In (320, Normal, 50, 320 * 50 - 100 * 50) (find_top10 100 50) \/
  (List.length (find_top10 100 50) = 10%nat /\
   Forall (fun r => key_le r (320, Normal, 50, 320 * 50 - 100 * 50))
          (find_top10 100 50)).
Proof.
  exact (find_top10_keeps_the_best 100 50 _ widest_option_example).
Defined.

Lemma find_top10_waste_nonneg_example : 0 <= 1850.
Proof.
  apply (find_top10_waste_nonneg 100 50 (137, Normal, 50, 1850)).
  - unfold Qle. simpl. lia.
  - unfold Qle. simpl. lia.
  - rewrite find_top10_example. simpl. tauto.
Defined.

Lemma tile_wide_panel :
  tile_width_only 1 300 137 = Some (302 # 3, 3%Z).
Proof. vm_compute. reflexivity. Qed.

Lemma tile_count_one_iff_example : 3%Z = 1%Z <-> 300 <= 137.
Proof. exact (tile_count_one_iff 1 300 137 _ _ tile_wide_panel). Defined.

Lemma pack_first_at_origin_example :
  exists w h tail,
    [(1%Z, 0, 0, 50, 50); (1%Z, 50, 0, 50, 50);
     (1%Z, 0, 50, 50, 50); (1%Z, 50, 50, 50, 50)]
    = (1%Z, 0, 0, w, h) :: tail /\
    In (w, h) [(50, 50); (50, 50)] /\ w <= 137 /\ h <= 10000.
Proof.
  exact (pack_first_at_origin 137 (mkPiece 1 [(50, 50); (50, 50)])
           (repeat (mkPiece 1 [(50, 50); (50, 50)]) 3) _ pack_four_squares).
Defined.

(** The piece 150 by 60 only fits a roll of 137 turned. *)
Lemma pack_step_turned_piece :
  pack_step ([(0, 0, 137, 10000)], []) turned_piece =
  Value (Some ([(60, 0, 77, 150); (0, 150, 137, 9850)],
               [(1%Z, 0, 0, 60, 150)])).
Proof. vm_compute. reflexivity. Qed.

Lemma pack_step_turns_only_if_needed_example :
  exists fx fy fw fh,
    In (fx, fy, fw, fh) [(0, 0, 137, 10000)] /\
    ([(1%Z, 0, 0, 60, 150)] = [] ++ [(1%Z, fx, fy, 150, 60)] \/
     ([(1%Z, 0, 0, 60, 150)] = [] ++ [(1%Z, fx, fy, 60, 150)] /\
      ~ (150 <= fw /\ 60 <= fh))).
Proof.
  exact (pack_step_turns_only_if_needed [(0, 0, 137, 10000)] [] turned_piece
           150 60 _ eq_refl pack_step_turned_piece).
Defined.

Lemma optimize_returns_attempted_layout_example :
  exists best_layout best_len,
    optimize 137 3 reversing_shuffle (mkStore two_panels tt) =
    Value (best_layout, best_len,
           final_store reversing_shuffle 3 (mkStore two_panels tt)) /\
    ((best_layout = None /\ best_len = None) \/
     (exists ps layout l,
         best_layout = Some layout /\ best_len = Some l /\
         In ps (attempts reversing_shuffle 3 (mkStore two_panels tt)) /\
         Permutation two_panels ps /\
         pack 137 ps = Value (Some layout) /\
         Forall2 placement_of ps layout /\
         length layout = Value l)).
Proof.
  exact (optimize_returns_attempted_layout 137 unit reversing_shuffle
           reversing_shuffle_perm 3 (mkStore two_panels tt)).
Defined.

Lemma two_panels_positive : Forall positive_piece two_panels.
Proof.
  unfold two_panels, positive_piece. simpl.
  repeat constructor; simpl; reflexivity.
Qed.

Lemma optimize_two_panels_one_pass :
  optimize 137 1 reversing_shuffle (mkStore two_panels tt) =
  Value (Some [(2%Z, 0, 0, 70, 80); (1%Z, 70, 0, 50, 60)], Some 80,
         mkStore (rev two_panels) tt).
Proof. vm_compute. reflexivity. Qed.

Lemma optimize_more_passes_example :
  exists layout' m' s2,
    optimize 137 (1 + 2) reversing_shuffle (mkStore two_panels tt)
    = Value (Some layout', Some m', s2) /\ m' <= 80.
Proof.
  exact (optimize_more_passes 137 unit reversing_shuffle
           reversing_shuffle_perm 1 2 (mkStore two_panels tt) _ _ _
           two_panels_positive optimize_two_panels_one_pass).
Defined.

(** Two panels 1000 wide cannot be cut into at most five strips for a
    roll of 137: the run stops with the error. *)
Lemma run_stops_on_oversize_panel :
  run_optimizer 137 1 3 reversing_shuffle oversize_panel tt = Stopped.
Proof.
  apply (proj2 (run_stops_iff 137 1 3 unit reversing_shuffle
                  oversize_panel tt
                  ltac:(repeat constructor))).
  right. constructor. vm_compute. reflexivity.
Defined.

Lemma tall_panel_positive :
  Forall (fun j : Job => let '(_, w, h, _) := j in 0 < w /\ 0 < h) tall_panel.
Proof. repeat constructor. Qed.

Lemma wide_panel_positive :
  Forall (fun j : Job => let '(_, w, h, _) := j in 0 < w /\ 0 < h) wide_panel.
Proof. repeat constructor. Qed.

(** A panel longer than the working area: every pass fails and the run
    ends in [TypeError]. *)
Lemma run_type_error_example :
  run_optimizer 137 1 3 reversing_shuffle tall_panel tt = RaisedTypeError.
Proof.
  apply (proj2 (run_type_error_iff 137 1 3 unit reversing_shuffle
                  reversing_shuffle_perm tall_panel tt
                  ltac:(unfold Qle; simpl; lia) tall_panel_positive)).
  exists [mkPiece 1 [(1, 20000); (20000, 1)]].
  split; [vm_compute; reflexivity|]. split; [discriminate|].
  vm_compute. repeat constructor.
Defined.

Lemma run_wide_panel :
  run_optimizer 137 1 3 reversing_shuffle wide_panel tt =
  Shown (150 / 100)
    [(1%Z, 302 # 3, 50); (1%Z, 302 # 3, 50); (1%Z, 302 # 3, 50)].
Proof. vm_compute. reflexivity. Qed.

Lemma run_shows_best_example :
  exists pieces layout m o1 ps o2,
    expand 1 137 wide_panel = Some pieces /\
    attempts reversing_shuffle 3 (mkStore pieces tt) = o1 ++ ps :: o2 /\
    pack 137 ps = Value (Some layout) /\
    length layout = Value m /\
    150 / 100 = m / 100 /\
    [(1%Z, 302 # 3, 50); (1%Z, 302 # 3, 50); (1%Z, 302 # 3, 50)]
    = map (fun pl : Placed => let '(id, _, _, w, h) := pl in (id, w, h))
          layout /\
    List.length [(1%Z, 302 # 3, 50); (1%Z, 302 # 3, 50); (1%Z, 302 # 3, 50)]
    = List.length pieces /\
    Forall (fun ps' => forall layout' l',
                pack 137 ps' = Value (Some layout') ->
                length layout' = Value l' -> m < l') o1 /\
    Forall (fun ps' => forall layout' l',
                pack 137 ps' = Value (Some layout') ->
                length layout' = Value l' -> m <= l') o2.
Proof.
  exact (run_shows_best 137 1 3 unit reversing_shuffle reversing_shuffle_perm
           wide_panel tt _ _ ltac:(unfold Qle; simpl; lia)
           wide_panel_positive run_wide_panel).
Defined.
